(** * optimalhouse: the proforma engine and the seeded property simulator

    A shallow embedding of [src/utils/calculations.ts] (the mortgage formula
    and [calculateProforma]), of the defaults module in its seeded version
    (the generator [seededRandom], [generateSeed], the [calculate...] helpers
    and [simulatePropertyData]) and of the records of the types module.

    A TypeScript [number] is an IEEE 754 binary64 value, and so is Rocq's
    primitive [float]: [+], [-], [*], [/] and the comparisons of the source
    are the primitive operations, rounding included.  [Math.floor],
    [Math.round], [Math.min] and [Math.abs] are written out below as
    ECMAScript defines them.  [Math.sin] and [Math.pow] are
    implementation-approximated in ECMAScript, so the model takes them from
    the host through the class [Host]. *)

From Stdlib Require Import Floats ZArith Bool List String Ascii.
From Stdlib Require Import QArith Qabs Reals Lra Lia Permutation DecimalString.
Import ListNotations.

Set Warnings "-inexact-float".

(** ** Numbers *)

Module Number.

Local Open Scope float_scope.

(** An integer as a number.  The conversion is exact up to [2^53] in
    magnitude, which covers the integers that [Math.floor] and [Math.round]
    produce: a binary64 value with a fraction is below [2^52]. *)
Definition of_Z (z : Z) : float :=
  match z with
  | Z0 => 0
  | Zpos _ => of_uint63 (Uint63.of_Z z)
  | Zneg _ => - of_uint63 (Uint63.of_Z (- z))
  end.

(** [x < 0] or [x] is [-0]: the sign bit of a value that is not NaN. *)
Definition is_negative (x : float) : bool :=
  match Prim2SF x with
  | S754_zero s | S754_infinity s | S754_finite s _ _ => s
  | S754_nan => false
  end.

(** [Math.floor]: NaN, the zeros, the infinities and the values without a
    fraction are returned unchanged; otherwise the largest integer below. *)
Definition Math_floor (x : float) : float :=
  match Prim2SF x with
  | S754_finite s m e =>
      if (0 <=? e)%Z then x
      else
        let d := (2 ^ (- e))%Z in
        let q := (Z.pos m / d)%Z in
        let r := (Z.pos m mod d)%Z in
        if s then of_Z (- (if (r =? 0)%Z then q else q + 1))
        else of_Z q
  | _ => x
  end.

(** [Math.round]: the nearest integer, a tie going to the larger one; a
    result of zero keeps the sign of [x] (so [Math.round(-0.2)] is [-0]). *)
Definition Math_round (x : float) : float :=
  match Prim2SF x with
  | S754_finite s m e =>
      if (0 <=? e)%Z then x
      else
        let d := (2 ^ (- e))%Z in
        let n := ((if s then - (2 * Z.pos m) else 2 * Z.pos m) + d)%Z in
        let z := (n / (2 * d))%Z in
        if (z =? 0)%Z then (if s then -0 else 0) else of_Z z
  | _ => x
  end.

(** [Math.min] of two arguments: NaN if either is NaN, and [-0] counts as
    smaller than [+0]. *)
Definition Math_min (x y : float) : float :=
  if is_nan x || is_nan y then nan
  else if x <? y then x
  else if y <? x then y
  else if is_negative x then x else y.

Definition Math_abs (x : float) : float := abs x.

(** Equality of numbers as values: what [===] decides, and NaN with NaN.
    It differs from Leibniz equality on [float] only at the two zeros. *)
Definition same_number (x y : float) : Prop :=
  (x =? y) = true \/ (is_nan x = true /\ is_nan y = true).

(** The rational number that a finite binary64 value is. *)
Definition exact_value (x : float) : Q :=
  match Prim2SF x with
  | S754_finite s m e =>
      (inject_Z (if s then Z.neg m else Z.pos m) * Qpower (2 # 1) e)%Q
  | _ => 0%Q
  end.

(** [f x], [f (f x)], ... up to [n] applications. *)
Fixpoint iterate {A : Type} (f : A -> A) (n : nat) (x : A) : list A :=
  match n with
  | O => []
  | S n' => f x :: iterate f n' (f x)
  end.

(** The values at most [k] units in the last place away from [x]. *)
Definition within_ulps (k : nat) (x : float) : list float :=
  x :: iterate next_up k x ++ iterate next_down k x.

End Number.
Export Number.

Local Open Scope float_scope.

(** ** The host's Math library

    ECMAScript fixes [Math.sin] on NaN, the zeros and the infinities and
    leaves every other value implementation-approximated; the same holds for
    [Math.pow] away from its special cases.  The approximated parts are the
    two fields of [Host]. *)

Class Host := {
  libm_sin : float -> float;
  Math_pow : float -> float -> float
}.

Definition Math_sin `{Host} (x : float) : float :=
  if is_nan x || is_infinity x then nan
  else if PrimFloat.is_zero x then x
  else libm_sin x.

(** ** The types module *)

Record Property := {
  address : string;
  beds : float;
  baths : float;
  year : float
}.

Record Assumptions := {
  purchasePrice : float;
  downPaymentPercent : float;
  interestRate : float;
  loanTerm : float;
  closingCostsPercent : float;
  landValuePercent : float;
  monthlyRent : float;
  vacancyPercent : float;
  avgNightlyRate : float;
  occupancyRate : float;
  airbnbFeePercent : float;
  equivalentRent : float;
  propertyTaxPercent : float;
  homeInsurancePercent : float;
  monthlyHOA : float;
  maintenancePercent : float;
  utilitiesMonthly : float;
  mgmtFeePercent : float
}.

Record PersonalInfo := {
  federalTaxRate : float;
  stateTaxRate : float;
  opportunityCostRate : float
}.

Inductive Scenario := rental | airbnb | owner.

Module BaseProforma.
Record t := {
  scenario : Scenario;
  totalCashNeeded : float;
  annualPropertyTax : float;
  annualHomeInsurance : float;
  annualHOA : float;
  annualUtilities : float;
  opportunityCost : float;
  year1Principal : float
}.
End BaseProforma.

(** [RentalProforma extends BaseProforma]: the base record is the spread
    [...proforma] of the source. *)
Module RentalProforma.
Record t := {
  base : BaseProforma.t;
  grossPotentialIncome : float;
  vacancyLoss : float;
  effectiveGrossIncome : float;
  totalOpEx : float;
  maintenance : float;
  managementFee : float;
  platformFee : float;
  annualMortgagePayment : float;
  totalExpenses : float;
  cashFlowBeforeTax : float;
  year1Interest : float;
  annualDepreciation : float;
  netTaxableIncome : float;
  taxBenefit : float;
  cashFlowAfterTax : float;
  capRate : float;
  cashOnCashReturn : float;
  cashFlowPerMonth : float
}.
End RentalProforma.

Module OwnerProforma.
Record t := {
  base : BaseProforma.t;
  grossAvoidedRent : float;
  totalAnnualCost : float;
  totalExpenses : float;
  annualPITI : float;
  year1Interest : float;
  deductiblePropTax : float;
  totalDeductions : float;
  taxBenefit : float;
  netAnnualCost : float;
  netBenefit : float;
  monthlyTotalCost : float;
  netMonthlyCost : float
}.
End OwnerProforma.

(** [type Proforma = RentalProforma | OwnerProforma]. *)
Inductive Proforma :=
  | Rental (r : RentalProforma.t)
  | Owner (o : OwnerProforma.t).

Module Proforma.

Definition base (p : Proforma) : BaseProforma.t :=
  match p with
  | Rental r => RentalProforma.base r
  | Owner o => OwnerProforma.base o
  end.

(** [year1Interest] is a field of both variants. *)
Definition year1Interest (p : Proforma) : float :=
  match p with
  | Rental r => RentalProforma.year1Interest r
  | Owner o => OwnerProforma.year1Interest o
  end.

End Proforma.

(** ** src/utils/calculations.ts *)

Section Calculations.

Context `{Host}.

(** Calculates the monthly principal and interest payment for a loan. *)
Definition calculateMonthlyPI (principal annualRate loanTermYears : float) : float :=
  if (principal <=? 0) || (annualRate <=? 0) || (loanTermYears <=? 0) then 0
  else
    let monthlyRate := annualRate / 12 in
    let numberOfPayments := loanTermYears * 12 in
    if monthlyRate =? 0 then principal / numberOfPayments
    else
      let payment :=
        principal *
        (monthlyRate * Math_pow (1 + monthlyRate) numberOfPayments) /
        (Math_pow (1 + monthlyRate) numberOfPayments - 1) in
      payment.

(** The constants that open [calculateProforma], before its scenario
    branches; each is the [const] of the same name. *)
Section Core.

Variables (assumptions : Assumptions) (personal : PersonalInfo).

Definition downPaymentAmount : float :=
  purchasePrice assumptions * downPaymentPercent assumptions.
Definition loanAmount : float :=
  purchasePrice assumptions - downPaymentAmount.
Definition totalCashNeeded : float :=
  downPaymentAmount + purchasePrice assumptions * closingCostsPercent assumptions.
Definition monthlyPI : float :=
  calculateMonthlyPI loanAmount (interestRate assumptions) (loanTerm assumptions).
Definition annualMortgagePayment : float := monthlyPI * 12.

Definition year1Interest : float := loanAmount * interestRate assumptions.
Definition year1Principal : float := annualMortgagePayment - year1Interest.

Definition annualPropertyTax : float :=
  purchasePrice assumptions * propertyTaxPercent assumptions.
Definition annualHomeInsurance : float :=
  purchasePrice assumptions * homeInsurancePercent assumptions.
Definition annualHOA : float := monthlyHOA assumptions * 12.
Definition annualUtilities : float := utilitiesMonthly assumptions * 12.

Definition depreciationBasis : float :=
  purchasePrice assumptions * (1 - landValuePercent assumptions).
Definition annualDepreciation : float := depreciationBasis / 27.5.

Definition combinedTaxRate : float :=
  federalTaxRate personal + stateTaxRate personal.

Definition opportunityCost : float :=
  totalCashNeeded * opportunityCostRate personal.

End Core.

(** Calculates the full proforma based on assumptions and scenario.  The
    source's last [return proforma] is behind an [if]/[else if] over the
    three values of [Scenario], so no scenario reaches it. *)
Definition calculateProforma
    (assumptions : Assumptions) (personal : PersonalInfo) (scenario : Scenario)
    : Proforma :=
  let totalCashNeeded := totalCashNeeded assumptions in
  let annualMortgagePayment := annualMortgagePayment assumptions in
  let year1Interest := year1Interest assumptions in
  let year1Principal := year1Principal assumptions in
  let annualPropertyTax := annualPropertyTax assumptions in
  let annualHomeInsurance := annualHomeInsurance assumptions in
  let annualHOA := annualHOA assumptions in
  let annualUtilities := annualUtilities assumptions in
  let annualDepreciation := annualDepreciation assumptions in
  let combinedTaxRate := combinedTaxRate personal in
  let opportunityCost := opportunityCost assumptions personal in
  let proforma :=
    {| BaseProforma.scenario := scenario;
       BaseProforma.totalCashNeeded := totalCashNeeded;
       BaseProforma.annualPropertyTax := annualPropertyTax;
       BaseProforma.annualHomeInsurance := annualHomeInsurance;
       BaseProforma.annualHOA := annualHOA;
       BaseProforma.annualUtilities := annualUtilities;
       BaseProforma.opportunityCost := opportunityCost;
       BaseProforma.year1Principal := year1Principal |} in
  match scenario with
  | rental | airbnb =>
      let is_rental := match scenario with rental => true | _ => false end in
      let is_airbnb := match scenario with airbnb => true | _ => false end in
      let grossPotentialIncome :=
        if is_rental then monthlyRent assumptions * 12
        else avgNightlyRate assumptions * 365 * occupancyRate assumptions in
      let vacancyLoss :=
        if is_rental then grossPotentialIncome * vacancyPercent assumptions
        else 0 in
      let effectiveGrossIncome := grossPotentialIncome - vacancyLoss in
      let maintenance := effectiveGrossIncome * maintenancePercent assumptions in
      let managementFee := effectiveGrossIncome * mgmtFeePercent assumptions in
      let platformFee :=
        if is_airbnb then effectiveGrossIncome * airbnbFeePercent assumptions
        else 0 in
      let totalOpEx :=
        annualPropertyTax + annualHomeInsurance + annualHOA + annualUtilities +
        maintenance + managementFee + platformFee in
      let totalExpenses := totalOpEx + annualMortgagePayment + opportunityCost in
      let netOperatingIncome := effectiveGrossIncome - totalOpEx in
      let cashFlowBeforeTax := netOperatingIncome - annualMortgagePayment in
      let deductibleExpenses := totalOpEx + year1Interest + annualDepreciation in
      let netTaxableIncome := effectiveGrossIncome - deductibleExpenses in
      let taxSavings :=
        if netTaxableIncome <? 0 then Math_abs netTaxableIncome * combinedTaxRate
        else 0 in
      let taxesOwed :=
        if 0 <? netTaxableIncome then netTaxableIncome * combinedTaxRate
        else 0 in
      let taxBenefit := taxSavings - taxesOwed in
      let cashFlowAfterTax := cashFlowBeforeTax + taxBenefit in
      let capRate := netOperatingIncome / purchasePrice assumptions in
      let cashOnCashReturn := cashFlowAfterTax / totalCashNeeded in
      let cashFlowPerMonth := cashFlowAfterTax / 12 in
      Rental
        {| RentalProforma.base := proforma;
           RentalProforma.grossPotentialIncome := grossPotentialIncome;
           RentalProforma.vacancyLoss := vacancyLoss;
           RentalProforma.effectiveGrossIncome := effectiveGrossIncome;
           RentalProforma.totalOpEx := totalOpEx;
           RentalProforma.maintenance := maintenance;
           RentalProforma.managementFee := managementFee;
           RentalProforma.platformFee := platformFee;
           RentalProforma.annualMortgagePayment := annualMortgagePayment;
           RentalProforma.totalExpenses := totalExpenses;
           RentalProforma.cashFlowBeforeTax := cashFlowBeforeTax;
           RentalProforma.year1Interest := year1Interest;
           RentalProforma.annualDepreciation := annualDepreciation;
           RentalProforma.netTaxableIncome := netTaxableIncome;
           RentalProforma.taxBenefit := taxBenefit;
           RentalProforma.cashFlowAfterTax := cashFlowAfterTax;
           RentalProforma.capRate := capRate;
           RentalProforma.cashOnCashReturn := cashOnCashReturn;
           RentalProforma.cashFlowPerMonth := cashFlowPerMonth |}
  | owner =>
      let grossAvoidedRent := equivalentRent assumptions * 12 in
      let annualPITI := annualMortgagePayment + annualPropertyTax + annualHomeInsurance in
      let totalAnnualCost := annualPITI + annualHOA + annualUtilities in
      let totalExpenses := totalAnnualCost + opportunityCost in
      let deductiblePropTax := Math_min annualPropertyTax 10000 in
      let deductibleInterest := year1Interest in
      let totalDeductions := deductiblePropTax + deductibleInterest in
      let taxSavings := totalDeductions * combinedTaxRate in
      let netAnnualCost := totalAnnualCost - taxSavings in
      let netBenefit := grossAvoidedRent - netAnnualCost in
      let monthlyTotalCost := totalAnnualCost / 12 in
      let netMonthlyCost := netAnnualCost / 12 in
      Owner
        {| OwnerProforma.base := proforma;
           OwnerProforma.grossAvoidedRent := grossAvoidedRent;
           OwnerProforma.totalAnnualCost := totalAnnualCost;
           OwnerProforma.totalExpenses := totalExpenses;
           OwnerProforma.annualPITI := annualPITI;
           OwnerProforma.year1Interest := year1Interest;
           OwnerProforma.deductiblePropTax := deductiblePropTax;
           OwnerProforma.totalDeductions := totalDeductions;
           OwnerProforma.taxBenefit := taxSavings;
           OwnerProforma.netAnnualCost := netAnnualCost;
           OwnerProforma.netBenefit := netBenefit;
           OwnerProforma.monthlyTotalCost := monthlyTotalCost;
           OwnerProforma.netMonthlyCost := netMonthlyCost |}
  end.

End Calculations.

(** ** The defaults module, seeded version *)

Definition defaultAssumptions : Assumptions :=
  {| purchasePrice := 425000;
     downPaymentPercent := 0.20;
     interestRate := 0.0675;
     loanTerm := 30;
     closingCostsPercent := 0.03;
     landValuePercent := 0.20;
     monthlyRent := 2400;
     vacancyPercent := 0.05;
     avgNightlyRate := 185;
     occupancyRate := 0.68;
     airbnbFeePercent := 0.03;
     equivalentRent := 2650;
     propertyTaxPercent := 0.0115;
     homeInsurancePercent := 0.0038;
     monthlyHOA := 125;
     maintenancePercent := 0.08;
     utilitiesMonthly := 185;
     mgmtFeePercent := 0.10 |}.

Definition defaultPersonal : PersonalInfo :=
  {| federalTaxRate := 0.24;
     stateTaxRate := 0.06;
     opportunityCostRate := 0.08 |}.

(** [char.charCodeAt(0)]: the code unit of a character, as a number. *)
Definition charCodeAt0 (char : ascii) : float :=
  Number.of_Z (Z.of_N (N_of_ascii char)).

(** [address.split('').reduce((acc, char) => acc + char.charCodeAt(0), 0)]. *)
Definition addressHash (address : string) : float :=
  fold_left (fun acc char => acc + charCodeAt0 char) (list_ascii_of_string address) 0.

Section Simulator.

Context `{Host}.

(** Helper to generate consistent randomization with a seed based on
    property characteristics. *)
Definition seededRandom (seed min max : float) : float :=
  let x := Math_sin seed * 10000 in
  let random := x - Math_floor x in
  min + random * (max - min).

(** Generate a seed from property characteristics. *)
Definition generateSeed (property : Property) : float :=
  let addressHash := addressHash (address property) in
  addressHash + beds property * 100 + baths property * 50 + year property.

(** Realistic property pricing based on market data patterns. *)
Definition calculateRealisticPrice (property : Property) (seed : float) : float :=
  let basePricePerBed := seededRandom (seed + 1) 80000 120000 in
  let basePricePerBath := seededRandom (seed + 2) 35000 55000 in
  let propertyAge := 2024 - year property in
  let ageFactor :=
    if propertyAge <? 5 then seededRandom (seed + 3) 1.15 1.25
    else if propertyAge <? 15 then seededRandom (seed + 4) 1.05 1.15
    else if propertyAge <? 30 then seededRandom (seed + 5) 0.95 1.05
    else if propertyAge <? 50 then seededRandom (seed + 6) 0.80 0.95
    else seededRandom (seed + 7) 0.70 0.90 in
  let basePrice := (basePricePerBed * beds property) + (basePricePerBath * baths property) in
  let marketMultiplier := seededRandom (seed + 8) 0.85 1.35 in
  let finalPrice := basePrice * ageFactor * marketMultiplier in
  Math_round (finalPrice / 5000) * 5000.

(** Realistic rent from the price and the size of the property. *)
Definition calculateRealisticRent (purchasePrice : float) (property : Property) (seed : float) : float :=
  let rentRatioBase := seededRandom (seed + 10) 0.0045 0.0075 in
  let sizeAdjustment :=
    if 4 <=? beds property then seededRandom (seed + 11) 0.90 0.95
    else if beds property <=? 2 then seededRandom (seed + 12) 1.05 1.15
    else 1.0 in
  let baseRent := purchasePrice * rentRatioBase * sizeAdjustment in
  Math_round (baseRent / 50) * 50.

(** Realistic Airbnb nightly rate. *)
Definition calculateAirbnbRate (monthlyRent : float) (property : Property) (seed : float) : float :=
  let dailyRentEquivalent := monthlyRent / 30 in
  let airbnbMultiplier := seededRandom (seed + 20) 2.3 3.2 in
  let bedroomBonus :=
    if 3 <=? beds property then seededRandom (seed + 21) 1.05 1.15 else 1.0 in
  let nightlyRate := dailyRentEquivalent * airbnbMultiplier * bedroomBonus in
  Math_round (nightlyRate / 5) * 5.

Definition calculateOccupancyRate (seed : float) : float :=
  seededRandom (seed + 25) 0.55 0.75.

Definition calculatePropertyTax (seed : float) : float :=
  seededRandom (seed + 30) 0.008 0.015.

Definition calculateHomeInsurance (purchasePrice seed : float) : float :=
  let baseRate := seededRandom (seed + 35) 0.002 0.006 in
  let priceAdjustment :=
    if 600000 <? purchasePrice then seededRandom (seed + 36) 0.85 0.95
    else if purchasePrice <? 250000 then seededRandom (seed + 37) 1.05 1.20
    else 1.0 in
  baseRate * priceAdjustment.

Definition calculateHOA (property : Property) (seed : float) : float :=
  let hasHOA := 0.4 <? seededRandom (seed + 40) 0 1 in
  if negb hasHOA then 0
  else
    let propertyAge := 2024 - year property in
    let hoaRange : float * float :=
      if propertyAge <? 10 then (150, 400)
      else if propertyAge <? 20 then (100, 300)
      else (50, 200) in
    let monthlyHOA := seededRandom (seed + 41) (fst hoaRange) (snd hoaRange) in
    Math_round (monthlyHOA / 25) * 25.

Definition calculateUtilities (property : Property) (seed : float) : float :=
  let baseUtilities := seededRandom (seed + 45) 100 150 in
  let bedroomCost := beds property * seededRandom (seed + 46) 25 40 in
  let bathroomCost := baths property * seededRandom (seed + 47) 15 25 in
  let totalUtilities := baseUtilities + bedroomCost + bathroomCost in
  Math_round (totalUtilities / 10) * 10.

Definition calculateInterestRate (seed : float) : float :=
  let rate := seededRandom (seed + 50) 0.0625 0.0750 in
  Math_round (rate / 0.00125) * 0.00125.

Definition calculateDownPayment (property : Property) (seed : float) : float :=
  let downPayment := seededRandom (seed + 55) 0.15 0.25 in
  Math_round (downPayment / 0.05) * 0.05.

(** SIMULATES fetching auto-filled data based on property info.  The
    returned object spreads [defaultAssumptions] and then sets every one of
    its eighteen fields. *)
Definition simulatePropertyData (property : Property) : Assumptions :=
  let seed := generateSeed property in
  let purchasePrice := calculateRealisticPrice property seed in
  let monthlyRent := calculateRealisticRent purchasePrice property seed in
  let equivalentRent :=
    Math_round (monthlyRent * seededRandom (seed + 60) 1.05 1.15 / 50) * 50 in
  let avgNightlyRate := calculateAirbnbRate monthlyRent property seed in
  let occupancyRate := calculateOccupancyRate seed in
  let propertyTaxPercent := calculatePropertyTax seed in
  let homeInsurancePercent := calculateHomeInsurance purchasePrice seed in
  let monthlyHOA := calculateHOA property seed in
  let utilitiesMonthly := calculateUtilities property seed in
  let interestRate := calculateInterestRate seed in
  let downPaymentPercent := calculateDownPayment property seed in
  let closingCostsPercent := seededRandom (seed + 65) 0.025 0.040 in
  let landValuePercent := seededRandom (seed + 70) 0.20 0.35 in
  let vacancyPercent := seededRandom (seed + 75) 0.04 0.08 in
  let maintenancePercent := seededRandom (seed + 80) 0.06 0.12 in
  let mgmtFeePercent := seededRandom (seed + 85) 0.08 0.12 in
  let airbnbFeePercent := seededRandom (seed + 90) 0.03 0.05 in
  {| purchasePrice := purchasePrice;
     downPaymentPercent := downPaymentPercent;
     interestRate := interestRate;
     loanTerm := 30;
     closingCostsPercent := closingCostsPercent;
     landValuePercent := landValuePercent;
     monthlyRent := monthlyRent;
     vacancyPercent := vacancyPercent;
     avgNightlyRate := avgNightlyRate;
     occupancyRate := occupancyRate;
     airbnbFeePercent := airbnbFeePercent;
     equivalentRent := equivalentRent;
     propertyTaxPercent := propertyTaxPercent;
     homeInsurancePercent := homeInsurancePercent;
     monthlyHOA := monthlyHOA;
     maintenancePercent := maintenancePercent;
     utilitiesMonthly := utilitiesMonthly;
     mgmtFeePercent := mgmtFeePercent |}.

End Simulator.

(** ** A reference host

    A host on which the model runs: [Math.pow] for an integral exponent is
    the exact power of the binary64 base, rounded once to the nearest
    binary64 value (ties to even); [Math.sin] is a Taylor polynomial after
    Cody-Waite reduction by [2 pi].  Engines differ from it in the last
    places, which is the latitude ECMAScript gives them. *)

Module Reference.

(** The integer that a number is, if it is one. *)
Definition to_integer (y : float) : option Z :=
  match Prim2SF y with
  | S754_zero _ => Some 0%Z
  | S754_finite s m e =>
      let sign z := if s then (- z)%Z else z in
      if (0 <=? e)%Z then Some (sign (Z.pos m * 2 ^ e)%Z)
      else
        let d := (2 ^ (- e))%Z in
        if (Z.pos m mod d =? 0)%Z then Some (sign (Z.pos m / d)%Z) else None
  | _ => None
  end.

Definition signed_zero (s : bool) : float := if s then -0 else 0.
Definition signed_infinity (s : bool) : float :=
  if s then neg_infinity else infinity.

(** [x] to the power [n], correctly rounded. *)
Definition pow_integer (x : float) (n : Z) : float :=
  match n with
  | Z0 => 1
  | Zpos p =>
      match Prim2SF x with
      | S754_nan => nan
      | S754_zero s => signed_zero (s && Z.odd n)
      | S754_infinity s => signed_infinity (s && Z.odd n)
      | S754_finite s m e =>
          SF2Prim (binary_round prec emax (s && Z.odd n) (Pos.pow m p) (e * n))
      end
  | Zneg p =>
      match Prim2SF x with
      | S754_nan => nan
      | S754_zero s => signed_infinity (s && Z.odd n)
      | S754_infinity s => signed_zero (s && Z.odd n)
      | S754_finite s m e =>
          SF2Prim (SFdiv prec emax (S754_finite false 1 0)
                     (S754_finite (s && Z.odd n) (Pos.pow m p) (e * Z.pos p)))
      end
  end.

(** Outside the integral exponents the reference has no approximation to
    offer and answers NaN. *)
Definition pow (x y : float) : float :=
  match to_integer y with
  | Some n => pow_integer x n
  | None => nan
  end.

(** [2 pi] split in a short head and a tail, so that [k * two_pi_head] is
    exact for the [k] of any seed the simulator produces. *)
Definition two_pi : float := 6.283185307179586.
Definition two_pi_head : float := 6.28125.
Definition two_pi_tail : float := 0.0019353071795864769.

Fixpoint sin_taylor (fuel : nat) (i term r2 acc : float) : float :=
  match fuel with
  | O => acc
  | S fuel' =>
      let term' := - term * r2 / ((i + 1) * (i + 2)) in
      sin_taylor fuel' (i + 2) term' r2 (acc + term')
  end.

Definition sin (x : float) : float :=
  let k := Math_round (x / two_pi) in
  let r := (x - k * two_pi_head) - k * two_pi_tail in
  sin_taylor 20 1 r (r * r) r.

#[global] Instance host : Host := {| libm_sin := sin; Math_pow := pow |}.

End Reference.

(** ** The formulas in exact arithmetic

    The same expressions with the rounding taken away: the loan amount, the
    monthly rate and the annuity equation over the rationals. *)

Module Exact.

(** The loan amount and the monthly rate over the rationals. *)
Definition loanAmount (purchasePrice downPaymentPercent : Q) : Q :=
  (purchasePrice - purchasePrice * downPaymentPercent)%Q.

Definition monthlyRate (annualRate : Q) : Q := (annualRate / 12)%Q.

(** The closed-form annuity payment of a loan of [P] at the periodic rate
    [r] over [n] periods. *)
Definition annuity (P r : Q) (n : positive) : Q :=
  (P * r * Qpower_positive (1 + r) n / (Qpower_positive (1 + r) n - 1))%Q.

End Exact.

(** [Math.pow(x, y)] of the host is at most [k] units in the last place away
    from the correctly rounded power. *)
Definition pow_within_ulps `{Host} (k : nat) (x y : float) : Prop :=
  In (Math_pow x y) (within_ulps k (Reference.pow x y)).

(** ** Inputs of the examples *)

(** The end-to-end input of the specification.  The five fields that the
    example leaves open are parameters. *)
Definition endToEndAssumptions
    (closingCostsPercent avgNightlyRate occupancyRate airbnbFeePercent
     equivalentRent : float) : Assumptions :=
  {| purchasePrice := 500000;
     downPaymentPercent := 0.20;
     interestRate := 0.065;
     loanTerm := 30;
     closingCostsPercent := closingCostsPercent;
     landValuePercent := 0.20;
     monthlyRent := 3000;
     vacancyPercent := 0.05;
     avgNightlyRate := avgNightlyRate;
     occupancyRate := occupancyRate;
     airbnbFeePercent := airbnbFeePercent;
     equivalentRent := equivalentRent;
     propertyTaxPercent := 0.012;
     homeInsurancePercent := 0.004;
     monthlyHOA := 50;
     maintenancePercent := 0.08;
     utilitiesMonthly := 200;
     mgmtFeePercent := 0.10 |}.

(** The monthly payment of the end-to-end input, given the value [v] that
    the host returns for [Math.pow(1 + 0.065 / 12, 30 * 12)]. *)
Definition endToEndPayment (v : float) : float :=
  400000 * (0.065 / 12 * v) / (v - 1).

(** [x] is within one cent of the rational [A]. *)
Definition within_a_cent (A : Q) (x : float) : bool :=
  Qle_bool (Qabs (exact_value x - A)) (1 # 100).

Definition endToEndPersonal : PersonalInfo :=
  {| federalTaxRate := 0.24;
     stateTaxRate := 0.05;
     opportunityCostRate := 0.07 |}.

(** [defaultAssumptions] with another price and down payment. *)
Definition defaultsWithPurchase (price downPayment : float) : Assumptions :=
  {| purchasePrice := price;
     downPaymentPercent := downPayment;
     interestRate := interestRate defaultAssumptions;
     loanTerm := loanTerm defaultAssumptions;
     closingCostsPercent := closingCostsPercent defaultAssumptions;
     landValuePercent := landValuePercent defaultAssumptions;
     monthlyRent := monthlyRent defaultAssumptions;
     vacancyPercent := vacancyPercent defaultAssumptions;
     avgNightlyRate := avgNightlyRate defaultAssumptions;
     occupancyRate := occupancyRate defaultAssumptions;
     airbnbFeePercent := airbnbFeePercent defaultAssumptions;
     equivalentRent := equivalentRent defaultAssumptions;
     propertyTaxPercent := propertyTaxPercent defaultAssumptions;
     homeInsurancePercent := homeInsurancePercent defaultAssumptions;
     monthlyHOA := monthlyHOA defaultAssumptions;
     maintenancePercent := maintenancePercent defaultAssumptions;
     utilitiesMonthly := utilitiesMonthly defaultAssumptions;
     mgmtFeePercent := mgmtFeePercent defaultAssumptions |}.

Definition house (address : string) : Property :=
  {| address := address; beds := 3; baths := 2; year := 1995 |}.



(** ** The defaults module: market context *)

Record MarketContext := {
  medianHomePrice : float;
  avgRentInArea : float;
  marketAppreciation : float;
  daysOnMarket : float
}.

Section MarketContextOf.

Context `{Host}.

(** Generate realistic market comparisons (for future use). *)
Definition generateMarketContext (property : Property) : MarketContext :=
  let seed := generateSeed property in
  {| medianHomePrice :=
       Math_round (seededRandom (seed + 100) 300000 600000 / 10000) * 10000;
     avgRentInArea := Math_round (seededRandom (seed + 105) 1500 3000 / 50) * 50;
     marketAppreciation := seededRandom (seed + 110) 0.02 0.08;
     daysOnMarket := Math_round (seededRandom (seed + 115) 15 60) |}.

End MarketContextOf.

(** ** The assumption editor

    The handlers of the editor and of its slider input.  A handler hands
    React an updater [(prev) => ({ ...prev, [key]: value })]; the model is
    the updater itself, a function from the previous record to the next. *)

(** [keyof Assumptions]. *)
Module Key.

Inductive t :=
  | purchasePrice | downPaymentPercent | interestRate | loanTerm
  | closingCostsPercent | landValuePercent | monthlyRent | vacancyPercent
  | avgNightlyRate | occupancyRate | airbnbFeePercent | equivalentRent
  | propertyTaxPercent | homeInsurancePercent | monthlyHOA
  | maintenancePercent | utilitiesMonthly | mgmtFeePercent.

(** The key as the string that it is in the source. *)
Definition name (key : t) : string :=
  match key with
  | purchasePrice => "purchasePrice"
  | downPaymentPercent => "downPaymentPercent"
  | interestRate => "interestRate"
  | loanTerm => "loanTerm"
  | closingCostsPercent => "closingCostsPercent"
  | landValuePercent => "landValuePercent"
  | monthlyRent => "monthlyRent"
  | vacancyPercent => "vacancyPercent"
  | avgNightlyRate => "avgNightlyRate"
  | occupancyRate => "occupancyRate"
  | airbnbFeePercent => "airbnbFeePercent"
  | equivalentRent => "equivalentRent"
  | propertyTaxPercent => "propertyTaxPercent"
  | homeInsurancePercent => "homeInsurancePercent"
  | monthlyHOA => "monthlyHOA"
  | maintenancePercent => "maintenancePercent"
  | utilitiesMonthly => "utilitiesMonthly"
  | mgmtFeePercent => "mgmtFeePercent"
  end.

Definition eqb (k k' : t) : bool := String.eqb (name k) (name k').

End Key.

(** [assumptions[key]]. *)
Definition getField (key : Key.t) (a : Assumptions) : float :=
  match key with
  | Key.purchasePrice => purchasePrice a
  | Key.downPaymentPercent => downPaymentPercent a
  | Key.interestRate => interestRate a
  | Key.loanTerm => loanTerm a
  | Key.closingCostsPercent => closingCostsPercent a
  | Key.landValuePercent => landValuePercent a
  | Key.monthlyRent => monthlyRent a
  | Key.vacancyPercent => vacancyPercent a
  | Key.avgNightlyRate => avgNightlyRate a
  | Key.occupancyRate => occupancyRate a
  | Key.airbnbFeePercent => airbnbFeePercent a
  | Key.equivalentRent => equivalentRent a
  | Key.propertyTaxPercent => propertyTaxPercent a
  | Key.homeInsurancePercent => homeInsurancePercent a
  | Key.monthlyHOA => monthlyHOA a
  | Key.maintenancePercent => maintenancePercent a
  | Key.utilitiesMonthly => utilitiesMonthly a
  | Key.mgmtFeePercent => mgmtFeePercent a
  end.

(** [{ ...prev, [key]: value }]. *)
Definition setField (key : Key.t) (value : float) (prev : Assumptions) : Assumptions :=
  let field k := if Key.eqb k key then value else getField k prev in
  {| purchasePrice := field Key.purchasePrice;
     downPaymentPercent := field Key.downPaymentPercent;
     interestRate := field Key.interestRate;
     loanTerm := field Key.loanTerm;
     closingCostsPercent := field Key.closingCostsPercent;
     landValuePercent := field Key.landValuePercent;
     monthlyRent := field Key.monthlyRent;
     vacancyPercent := field Key.vacancyPercent;
     avgNightlyRate := field Key.avgNightlyRate;
     occupancyRate := field Key.occupancyRate;
     airbnbFeePercent := field Key.airbnbFeePercent;
     equivalentRent := field Key.equivalentRent;
     propertyTaxPercent := field Key.propertyTaxPercent;
     homeInsurancePercent := field Key.homeInsurancePercent;
     monthlyHOA := field Key.monthlyHOA;
     maintenancePercent := field Key.maintenancePercent;
     utilitiesMonthly := field Key.utilitiesMonthly;
     mgmtFeePercent := field Key.mgmtFeePercent |}.

(** The conversions between text and numbers are the host's: [parseFloat],
    [Number] applied to a string, and [toString] of a number. *)
Class TextHost := {
  parseFloat : string -> float;
  Number_of_string : string -> float;
  Number_toString : float -> string
}.

(** A value of type [string | number]. *)
Inductive InputValue :=
  | Text (s : string)
  | Num (x : float).

(** [s.includes(search)]. *)
Definition includes (s search : string) : bool :=
  match String.index 0 search s with
  | Some _ => true
  | None => false
  end.

(** [x || 0] on numbers: NaN and the two zeros are falsy. *)
Definition or_zero (x : float) : float :=
  if is_nan x || PrimFloat.is_zero x then 0 else x.

(** [keyof PersonalInfo], [personal[key]] and [{ ...prev, [key]: value }]. *)
Module PersonalKey.

Inductive t := federalTaxRate | stateTaxRate | opportunityCostRate.

End PersonalKey.

Definition getPersonal (key : PersonalKey.t) (p : PersonalInfo) : float :=
  match key with
  | PersonalKey.federalTaxRate => federalTaxRate p
  | PersonalKey.stateTaxRate => stateTaxRate p
  | PersonalKey.opportunityCostRate => opportunityCostRate p
  end.

Definition setPersonal (key : PersonalKey.t) (value : float) (prev : PersonalInfo)
    : PersonalInfo :=
  match key with
  | PersonalKey.federalTaxRate =>
      {| federalTaxRate := value;
         stateTaxRate := stateTaxRate prev;
         opportunityCostRate := opportunityCostRate prev |}
  | PersonalKey.stateTaxRate =>
      {| federalTaxRate := federalTaxRate prev;
         stateTaxRate := value;
         opportunityCostRate := opportunityCostRate prev |}
  | PersonalKey.opportunityCostRate =>
      {| federalTaxRate := federalTaxRate prev;
         stateTaxRate := stateTaxRate prev;
         opportunityCostRate := value |}
  end.

Section Editor.

Context `{TextHost}.

Definition handleAssumptionChange (key : Key.t) (value : InputValue)
    (prev : Assumptions) : Assumptions :=
  let processedValue :=
    if includes (Key.name key) "Percent" || includes (Key.name key) "Rate" then
      match value with
      | Text EmptyString => 0
      | Text s => parseFloat s / 100
      | Num x => parseFloat (Number_toString x) / 100
      end
    else
      match value with
      | Text s => Number_of_string s
      | Num x => x
      end in
  setField key processedValue prev.

Definition handleSliderChange (key : Key.t) (value : float)
    (prev : Assumptions) : Assumptions :=
  setField key value prev.

Definition handlePersonalChange (key : PersonalKey.t) (value : InputValue)
    (prev : PersonalInfo) : PersonalInfo :=
  let processedValue :=
    match value with
    | Text EmptyString => 0
    | Text s => parseFloat s / 100
    | Num x => parseFloat (Number_toString x) / 100
    end in
  setPersonal key processedValue prev.

(** [handleTextChange] of the slider input: the number it computes from the
    text box, and the string it passes on. *)
Definition textChangeValue (isPercent : bool) (text : string) : float :=
  let val := or_zero (parseFloat text) in
  if isPercent then val / 100 else val.

Definition handleTextChange (isPercent : bool) (text : string) : string :=
  Number_toString (textChangeValue isPercent text).

End Editor.

(** ** A reference for the text conversions

    A host on which the editor runs.  It reads plain decimal numerals, an
    optional minus sign, digits and at most one point, rounding the value
    once, and answers NaN for any other text; it prints the shortest plain
    numeral that reads back as the same number, which is what JavaScript
    prints for magnitudes from [1e-6] up to [1e21] (beyond them JavaScript
    switches to an exponent and the reference does not). *)

Module ReferenceText.

(** The digits of a numeral and the number of them after the point. *)
Fixpoint read_digits (s : string) (seen_point : bool) (n : Z) (k : nat)
    : option (Z * nat) :=
  match s with
  | EmptyString => Some (n, k)
  | String c s' =>
      if Ascii.eqb c "."%char then
        if seen_point then None else read_digits s' true n k
      else
        let d := (Z.of_N (N_of_ascii c) - 48)%Z in
        if ((0 <=? d) && (d <=? 9))%Z then
          read_digits s' seen_point (10 * n + d)%Z (if seen_point then S k else k)
        else None
  end.

(** [n / 10^k], rounded once. *)
Definition decimal (n : Z) (k : nat) : float :=
  match n with
  | Zpos p =>
      SF2Prim (SFdiv prec emax (S754_finite false p 0)
                 (S754_finite false (Z.to_pos (10 ^ Z.of_nat k)) 0))
  | _ => 0
  end.

Definition numeral (s : string) : float :=
  match s with
  | EmptyString => nan
  | String "-" s' =>
      match read_digits s' false 0 0 with
      | Some (n, k) => - decimal n k
      | None => nan
      end
  | _ =>
      match read_digits s false 0 0 with
      | Some (n, k) => decimal n k
      | None => nan
      end
  end.

(** [n] in decimal with a point before its last [k] digits. *)
Definition plain (n : Z) (k : nat) : string :=
  let digits := NilZero.string_of_uint (N.to_uint (Z.to_N n)) in
  let len := String.length digits in
  if Nat.eqb k 0 then digits
  else if Nat.ltb k len then
    (String.substring 0 (len - k) digits ++ "." ++
     String.substring (len - k) k digits)%string
  else ("0." ++ String.concat "" (repeat "0" (k - len)) ++ digits)%string.

(** The nearest integer to a rational. *)
Definition nearest (q : Q) : Z :=
  ((2 * Qnum q + Z.pos (Qden q)) / (2 * Z.pos (Qden q)))%Z.

(** The numeral of [q] with the fewest digits after the point, from [k] on,
    that reads back as [x]. *)
Fixpoint shortest (x : float) (q : Q) (k : nat) (fuel : nat) : string :=
  let n := nearest (q * inject_Z (10 ^ Z.of_nat k)) in
  match fuel with
  | O => plain n k
  | S fuel' =>
      if decimal n k =? x then plain n k else shortest x q (S k) fuel'
  end.

Definition toString (x : float) : string :=
  match Prim2SF x with
  | S754_nan => "NaN"
  | S754_zero _ => "0"
  | S754_infinity s => if s then "-Infinity" else "Infinity"
  | S754_finite s _ _ =>
      let body := shortest (PrimFloat.abs x) (Qabs (exact_value x)) 0 30 in
      if s then ("-" ++ body)%string else body
  end.

#[global] Instance host : TextHost :=
  {| parseFloat := numeral;
     Number_of_string := fun s => match s with EmptyString => 0 | _ => numeral s end;
     Number_toString := toString |}.

End ReferenceText.

(** The assumptions that a scenario's branch of [calculateProforma] does not
    read. *)
Definition unread (scenario : Scenario) : list Key.t :=
  match scenario with
  | rental =>
      [Key.avgNightlyRate; Key.occupancyRate; Key.airbnbFeePercent;
       Key.equivalentRent]
  | airbnb => [Key.monthlyRent; Key.vacancyPercent; Key.equivalentRent]
  | owner =>
      [Key.monthlyRent; Key.vacancyPercent; Key.avgNightlyRate;
       Key.occupancyRate; Key.airbnbFeePercent; Key.landValuePercent;
       Key.maintenancePercent; Key.mgmtFeePercent]
  end.

(** The sum of the character codes of an address, as an integer. *)
Definition codeSum (address : string) : Z :=
  fold_left (fun acc char => (acc + Z.of_N (N_of_ascii char))%Z)
    (list_ascii_of_string address) 0%Z.


(** What [generateSeed] adds up when beds, baths and year are whole
    numbers. *)
Definition seedSum (address : string) (beds baths year : Z) : Z :=
  (codeSum address + beds * 100 + baths * 50 + year)%Z.

(** ** Vocabulary for the binary64 facts *)

(** The sign bit of a value is [s]; NaN has none to speak of. *)
Definition has_sign (s : bool) (x : spec_float) : Prop :=
  match x with
  | S754_zero s' | S754_infinity s' | S754_finite s' _ _ => s' = s
  | S754_nan => True
  end.

(** The number of binary digits of a positive integer. *)
Definition dgt (p : positive) : Z := Z.pos (digits2_pos p).

(** The binary64 representation of a positive integer of at most 53 bits:
    the integer shifted left to fill the 53 bits of the significand. *)
Definition canon (s : bool) (p : positive) : spec_float :=
  S754_finite s (Pos.shiftl p (Z.to_N (53 - dgt p))) (dgt p - 53)%Z.

(** ** Vocabulary for the rounding facts *)

(** [2^e] as a real number. *)
Definition bpow (e : Z) : R := powerRZ 2 e.

(** [m * 2^e]. *)
Definition scaled (m e : Z) : R := (IZR m * bpow e)%R.

(** The real number that a finite value or a zero is. *)
Definition SF2R (x : spec_float) : R :=
  match x with
  | S754_finite s m e => scaled (cond_Zopp s (Z.pos m)) e
  | _ => 0%R
  end.

(** A zero or a finite value: neither NaN nor an infinity. *)
Definition SFfinite (x : spec_float) : Prop :=
  match x with
  | S754_zero _ | S754_finite _ _ _ => True
  | _ => False
  end.

(** The exponent at which [m * 2^e] is rounded. *)
Definition grid (m e : Z) : Z := fexp prec emax (Zdigits2 m + e).

(** The integer nearest to [m / 2^k], a tie going to the even one. *)
Definition rne (m k : Z) : Z :=
  let q := (m / 2 ^ k)%Z in
  let r := (m mod 2 ^ k)%Z in
  if (2 * r <? 2 ^ k)%Z then q
  else if (2 * r =? 2 ^ k)%Z then (if Z.even q then q else q + 1)%Z
  else (q + 1)%Z.

(** [r] is what the real number [v] rounds to: [v] is a zero, or it is
    [m * 2^e] with enough digits for the rounding to see all of them. *)
Definition rounds (v : R) (r : spec_float) : Prop :=
  (v = 0%R /\ exists s, r = S754_zero s) \/
  exists s m e,
    (e <= grid (Z.pos m) e)%Z /\
    v = scaled (cond_Zopp s (Z.pos m)) e /\
    r = binary_round_aux prec emax s (Z.pos m) e loc_Exact.

(** The same with the infinities at [2^1024] and [-2^1024], just beyond the
    finite values. *)
Definition SF2Rext (x : spec_float) : R :=
  match x with
  | S754_infinity s => if s then (- bpow 1024)%R else bpow 1024
  | _ => SF2R x
  end.

(** The ranges with which the module calls [seededRandom], in the order of
    the source; the three of [calculateHOA] are its [hoaRange] tuples. *)
Definition seededRanges : list (float * float) :=
  [(80000, 120000); (35000, 55000); (1.15, 1.25); (1.05, 1.15); (0.95, 1.05);
   (0.80, 0.95); (0.70, 0.90); (0.85, 1.35); (0.0045, 0.0075); (0.90, 0.95);
   (1.05, 1.15); (2.3, 3.2); (1.05, 1.15); (0.55, 0.75); (0.008, 0.015);
   (0.002, 0.006); (0.85, 0.95); (1.05, 1.20); (0, 1); (150, 400); (100, 300);
   (50, 200); (100, 150); (25, 40); (15, 25); (0.0625, 0.0750); (0.15, 0.25);
   (1.05, 1.15); (0.025, 0.040); (0.20, 0.35); (0.04, 0.08); (0.06, 0.12);
   (0.08, 0.12); (0.03, 0.05); (300000, 600000); (1500, 3000); (0.02, 0.08);
   (15, 60)]%float.

(** * Facts about binary64 arithmetic

    Each operation is taken to its specification on [spec_float] and settled
    there by cases. *)

Module NumberFacts.

Ltac to_spec :=
  apply Prim2SF_inj;
  repeat first
    [ rewrite sub_spec | rewrite add_spec | rewrite mul_spec
    | rewrite opp_spec | rewrite abs_spec ].

Lemma Prim2SF_zero : Prim2SF 0 = S754_zero false.
Proof. reflexivity. Qed.

(** Subtracting [+0] changes nothing, not even the sign of a zero. *)
Lemma sub_zero_r (x : float) : x - 0 = x.
Proof.
  to_spec. rewrite Prim2SF_zero.
  destruct (Prim2SF x) as [[|]|[|]| |[|] m e]; reflexivity.
Qed.

Lemma mul_comm (x y : float) : x * y = y * x.
Proof.
  to_spec.
  destruct (Prim2SF x) as [sx|sx| |sx mx ex], (Prim2SF y) as [sy|sy| |sy my ey];
    cbn; rewrite ?(xorb_comm sy sx); try reflexivity.
  now rewrite (Pos.mul_comm my mx), (Z.add_comm ey ex).
Qed.

Lemma add_comm (x y : float) : x + y = y + x.
Proof.
  to_spec.
  destruct (Prim2SF x) as [[|]|[|]| |sx mx ex], (Prim2SF y) as [[|]|[|]| |sy my ey];
    try reflexivity.
  cbn. rewrite (Z.min_comm ey ex). f_equal. apply Z.add_comm.
Qed.

(** [0 + x] is [x] unless [x] is [-0], which it turns into [+0]. *)
Lemma add_zero_l (x : float) : Prim2SF x <> S754_zero true -> 0 + x = x.
Proof.
  intro Hx. to_spec. rewrite Prim2SF_zero.
  destruct (Prim2SF x) as [[|]|[|]| |[|] m e]; try reflexivity.
  now elim Hx.
Qed.

Lemma is_nan_spec (x : float) : is_nan x = true <-> Prim2SF x = S754_nan.
Proof.
  unfold is_nan. rewrite FloatAxioms.eqb_spec. unfold SFeqb.
  destruct (Prim2SF x) as [[|]|[|]| |[|] m e]; cbn;
    rewrite ?Z.compare_refl, ?Pos.compare_cont_refl; cbn;
    split; intro; congruence.
Qed.

Lemma is_nan_false (x : float) : is_nan x = false <-> Prim2SF x <> S754_nan.
Proof.
  rewrite <- is_nan_spec. destruct (is_nan x); split; congruence.
Qed.

Lemma SFcompare_antisym (x y : spec_float) :
  SFcompare y x = option_map CompOpp (SFcompare x y).
Proof.
  destruct x as [sx|sx| |sx mx ex], y as [sy|sy| |sy my ey]; cbn;
    try reflexivity;
    try (destruct sx; reflexivity); try (destruct sy; reflexivity);
    try (destruct sx, sy; reflexivity).
  destruct sx, sy; cbn; try reflexivity;
    rewrite (Z.compare_antisym ex ey); destruct (ex ?= ey)%Z; cbn;
    try reflexivity;
    now rewrite (Pos.compare_cont_antisym mx my Eq).
Qed.

Lemma ltb_leb (x y : float) : (x <? y) = true -> (x <=? y) = true.
Proof.
  rewrite FloatAxioms.ltb_spec, FloatAxioms.leb_spec. unfold SFltb, SFleb.
  destruct (SFcompare (Prim2SF x) (Prim2SF y)) as [[| |]|]; congruence.
Qed.

(** Two numbers, neither below the other, compare as equal. *)
Lemma not_ltb_leb (x y : float) :
  is_nan x = false -> is_nan y = false ->
  (y <? x) = false -> (x <=? y) = true.
Proof.
  rewrite !is_nan_false, FloatAxioms.ltb_spec, FloatAxioms.leb_spec. unfold SFltb, SFleb.
  rewrite (SFcompare_antisym (Prim2SF x) (Prim2SF y)).
  intros Hx Hy.
  destruct (Prim2SF x) as [sx|sx| |sx mx ex], (Prim2SF y) as [sy|sy| |sy my ey];
    try congruence;
    destruct (SFcompare _ _) as [[| |]|] eqn:E; cbn; try congruence;
    cbn in E; try discriminate E.
Qed.

Lemma ltb_irrefl_leb (x y : float) : (x <=? y) = true -> (y <? x) = false.
Proof.
  rewrite FloatAxioms.ltb_spec, FloatAxioms.leb_spec. unfold SFltb, SFleb.
  rewrite (SFcompare_antisym (Prim2SF x) (Prim2SF y)).
  destruct (SFcompare _ _) as [[| |]|]; cbn; congruence.
Qed.

(** [0 - y] is the number [- y]; the two differ only when [y] is [+0],
    where the difference is [+0] and the opposite is [-0]. *)
Lemma zero_sub (y : float) : same_number (0 - y) (- y).
Proof.
  unfold same_number.
  destruct (is_nan y) eqn:Hn.
  - right. apply is_nan_spec in Hn. split; apply is_nan_spec.
    + now rewrite sub_spec, Hn.
    + now rewrite opp_spec, Hn.
  - left. apply is_nan_false in Hn.
    rewrite FloatAxioms.eqb_spec, sub_spec, opp_spec, Prim2SF_zero. unfold SFeqb.
    destruct (Prim2SF y) as [[|]|[|]| |[|] m e]; cbn;
      rewrite ?Z.compare_refl, ?Pos.compare_cont_refl; try reflexivity.
    now elim Hn.
Qed.

(** Away from [+0] the two are the same value, NaN included. *)
Lemma zero_sub_opp (y : float) : (y =? 0) = false -> 0 - y = - y.
Proof.
  rewrite FloatAxioms.eqb_spec, Prim2SF_zero. intros Hy.
  to_spec. rewrite Prim2SF_zero.
  destruct (Prim2SF y) as [[|]|[|]| |[|] m e]; try reflexivity; discriminate Hy.
Qed.

End NumberFacts.

(** * The mortgage formula *)

Section MonthlyPayment.

Context `{Host}.

(** A rate of zero is caught by the first guard of [calculateMonthlyPI]:
    [0 <= 0] holds, so the function returns before it divides. *)
Lemma calculateMonthlyPI_zero_rate (principal loanTermYears : float) :
  calculateMonthlyPI principal 0 loanTermYears = 0.
Proof.
  unfold calculateMonthlyPI.
  destruct (principal <=? 0); reflexivity.
Qed.

(** C10, as the code has it.  [calculateMonthlyPI] returns 0 as soon as the
    principal, the rate or the term is at most 0.  Past that guard it
    returns the annuity value [P * (r * (1+r)^n) / ((1+r)^n - 1)], with
    [r = annualRate / 12] and [n = loanTermYears * 12], when [r] is not zero,
    and [principal / n] when [r] is zero; a positive rate small enough for
    [annualRate / 12] to underflow reaches that last branch. *)
Theorem calculateMonthlyPI_cases (principal annualRate loanTermYears : float) :
  let r := annualRate / 12 in
  let n := loanTermYears * 12 in
  ((principal <=? 0) = true \/ (annualRate <=? 0) = true \/
   (loanTermYears <=? 0) = true ->
   calculateMonthlyPI principal annualRate loanTermYears = 0) /\
  ((principal <=? 0) = false /\ (annualRate <=? 0) = false /\
   (loanTermYears <=? 0) = false ->
   ((r =? 0) = false ->
    calculateMonthlyPI principal annualRate loanTermYears =
    principal * (r * Math_pow (1 + r) n) / (Math_pow (1 + r) n - 1)) /\
   ((r =? 0) = true ->
    calculateMonthlyPI principal annualRate loanTermYears = principal / n)).
Proof.
  intros r n. unfold calculateMonthlyPI. fold r n. split.
  - intros [Hp | [Hr | Hn]].
    + now rewrite Hp.
    + rewrite Hr. now destruct (principal <=? 0).
    + rewrite Hn. now destruct (principal <=? 0), (annualRate <=? 0).
  - intros (Hp & Hr & Hn). rewrite Hp, Hr, Hn. cbn.
    split; intros Hz; now rewrite Hz.
Qed.

(** The smallest positive rate passes the guard and leaves through the
    [monthlyRate === 0] branch, on every host: [Math.pow] is not called. *)
Lemma calculateMonthlyPI_underflow (principal loanTermYears : float) :
  (principal <=? 0) = false -> (loanTermYears <=? 0) = false ->
  calculateMonthlyPI principal 5e-324 loanTermYears =
  principal / (loanTermYears * 12).
Proof.
  intros Hp Hn. unfold calculateMonthlyPI. now rewrite Hp, Hn.
Qed.

End MonthlyPayment.

(** In exact arithmetic a positive rate has a positive twelfth, and the
    code's loan amount is [purchasePrice * (1 - downPaymentPercent)]. *)
Lemma monthlyRate_positive_exact (annualRate : Q) :
  (0 < annualRate)%Q -> (0 < Exact.monthlyRate annualRate)%Q.
Proof.
  intros Hr. unfold Exact.monthlyRate.
  apply Qlt_shift_div_l; [ reflexivity | now rewrite Qmult_0_l ].
Qed.

Lemma loanAmount_exact (purchasePrice downPaymentPercent : Q) :
  (Exact.loanAmount purchasePrice downPaymentPercent ==
   purchasePrice * (1 - downPaymentPercent))%Q.
Proof. unfold Exact.loanAmount. ring. Qed.

(** C2: at a rate of zero the code returns 0, not [principal / n]: for a
    principal of 360000 over 30 years it answers 0 where the claim expects
    1000. *)
Lemma calculateMonthlyPI_zero_rate_example :
  calculateMonthlyPI 360000 0 30 = 0 /\ 360000 / (30 * 12) = 1000.
Proof. split; reflexivity. Qed.

(** The six smallest positive binary64 numbers are the rates whose twelfth
    rounds to zero; the seventh has the smallest positive number as its
    twelfth. *)
Example underflowing_rates :
  forallb (fun annualRate => (0 <? annualRate) && (annualRate / 12 =? 0))
    (iterate next_up 6 0) = true /\
  nth 6 (iterate next_up 7 0) 0 / 12 = next_up 0.
Proof. split; reflexivity. Qed.

(** C10 as stated fails: the smallest positive binary64 number is a rate
    above 0 whose twelfth rounds to 0, so the call passes the guard, takes
    the [monthlyRate === 0] branch and returns [principal / n], which is
    neither 0 nor the value of the annuity expression. *)
Lemma calculateMonthlyPI_zero_branch_reached :
  let annualRate := 5e-324 in
  let r := annualRate / 12 in
  (200000 <=? 0) = false /\ (annualRate <=? 0) = false /\ (30 <=? 0) = false /\
  (r =? 0) = true /\
  calculateMonthlyPI 200000 annualRate 30 = 200000 / (30 * 12) /\
  (calculateMonthlyPI 200000 annualRate 30 =? 0) = false /\
  (calculateMonthlyPI 200000 annualRate 30 =?
   200000 * (r * Math_pow (1 + r) (30 * 12)) / (Math_pow (1 + r) (30 * 12) - 1))
  = false.
Proof. repeat split; reflexivity. Qed.

(** * The proforma *)

Section ProformaFacts.

Context `{Host}.

Variables (a : Assumptions) (p : PersonalInfo).

(** The rental and the Airbnb scenario return the rental variant, the owner
    scenario the owner variant. *)
Lemma calculateProforma_variant (s : Scenario) :
  match s with
  | owner => exists o, calculateProforma a p s = Owner o
  | _ => exists r, calculateProforma a p s = Rental r
  end.
Proof. destruct s; eexists; reflexivity. Qed.

(** C3: in the rental and the Airbnb scenario the net taxable income is the
    effective gross income less the operating expenses, the first-year
    interest and the depreciation; a negative one gives
    [taxBenefit = |netTaxableIncome| * combinedTaxRate] and a positive one
    gives the number [-(netTaxableIncome * combinedTaxRate)], with
    [combinedTaxRate = federalTaxRate + stateTaxRate].  In the positive case
    the two sides are the same value unless the tax is zero, where the code
    has [+0] and the opposite is [-0]. *)
Theorem rental_taxBenefit (s : Scenario) :
  s <> owner ->
  exists r, calculateProforma a p s = Rental r /\
    let gross :=
      match s with
      | rental => monthlyRent a * 12
      | _ => avgNightlyRate a * 365 * occupancyRate a
      end in
    let vacancy := match s with rental => gross * vacancyPercent a | _ => 0 end in
    let effective := gross - vacancy in
    let platform :=
      match s with airbnb => effective * airbnbFeePercent a | _ => 0 end in
    let opex :=
      annualPropertyTax a + annualHomeInsurance a + annualHOA a +
      annualUtilities a + effective * maintenancePercent a +
      effective * mgmtFeePercent a + platform in
    let income := effective - (opex + year1Interest a + annualDepreciation a) in
    let rate := federalTaxRate p + stateTaxRate p in
    RentalProforma.netTaxableIncome r = income /\
    ((income <? 0) = true ->
     RentalProforma.taxBenefit r = Math_abs income * rate) /\
    ((0 <? income) = true ->
     same_number (RentalProforma.taxBenefit r) (- (income * rate)) /\
     ((income * rate =? 0) = false ->
      RentalProforma.taxBenefit r = - (income * rate))).
Proof.
  intros Hs.
  destruct s; [ | | contradiction ];
    (eexists; split;
     [ reflexivity | cbn; split; [ reflexivity | split; intros Hsign ] ]);
    rewrite Hsign,
      (NumberFacts.ltb_irrefl_leb _ _ (NumberFacts.ltb_leb _ _ Hsign)).
  1, 3: apply NumberFacts.sub_zero_r.
  all: split; [ apply NumberFacts.zero_sub | apply NumberFacts.zero_sub_opp ].
Qed.

(** C5: the rental scenario charges [grossPotentialIncome * vacancyPercent]
    on a gross income of twelve rents; the Airbnb scenario counts occupancy
    in its gross income and charges a vacancy loss of exactly 0, so its
    effective gross income is its gross potential income. *)
Theorem vacancyLoss_by_scenario :
  (exists r, calculateProforma a p rental = Rental r /\
     RentalProforma.grossPotentialIncome r = monthlyRent a * 12 /\
     RentalProforma.vacancyLoss r =
     RentalProforma.grossPotentialIncome r * vacancyPercent a) /\
  (exists r, calculateProforma a p airbnb = Rental r /\
     RentalProforma.grossPotentialIncome r =
     avgNightlyRate a * 365 * occupancyRate a /\
     RentalProforma.vacancyLoss r = 0 /\
     RentalProforma.effectiveGrossIncome r =
     RentalProforma.grossPotentialIncome r).
Proof.
  split; eexists; (split; [ reflexivity | cbn ]); repeat split.
  apply NumberFacts.sub_zero_r.
Qed.

(** C7, as the code has it: in every scenario
    [year1Interest = loanAmount * interestRate] and
    [year1Principal = annualMortgagePayment - year1Interest], with
    [loanAmount = purchasePrice - purchasePrice * downPaymentPercent] and
    [annualMortgagePayment = 12 * calculateMonthlyPI(loanAmount,
    interestRate, loanTerm)]. *)
Theorem year1_interest_and_principal (s : Scenario) :
  let pf := calculateProforma a p s in
  Proforma.year1Interest pf = loanAmount a * interestRate a /\
  BaseProforma.year1Principal (Proforma.base pf) =
  annualMortgagePayment a - Proforma.year1Interest pf /\
  loanAmount a = purchasePrice a - purchasePrice a * downPaymentPercent a /\
  annualMortgagePayment a =
  12 * calculateMonthlyPI (loanAmount a) (interestRate a) (loanTerm a).
Proof.
  destruct s; cbn; repeat split; apply NumberFacts.mul_comm.
Qed.

(** C9: the seven base fields do not depend on the scenario; the eighth
    field of the base record is the scenario tag itself. *)
Theorem base_fields_independent_of_scenario (s s' : Scenario) :
  let b := Proforma.base (calculateProforma a p s) in
  let b' := Proforma.base (calculateProforma a p s') in
  BaseProforma.totalCashNeeded b = BaseProforma.totalCashNeeded b' /\
  BaseProforma.annualPropertyTax b = BaseProforma.annualPropertyTax b' /\
  BaseProforma.annualHomeInsurance b = BaseProforma.annualHomeInsurance b' /\
  BaseProforma.annualHOA b = BaseProforma.annualHOA b' /\
  BaseProforma.annualUtilities b = BaseProforma.annualUtilities b' /\
  BaseProforma.opportunityCost b = BaseProforma.opportunityCost b' /\
  BaseProforma.year1Principal b = BaseProforma.year1Principal b' /\
  BaseProforma.scenario b = s /\ BaseProforma.scenario b' = s'.
Proof. destruct s, s'; cbn; repeat split. Qed.

End ProformaFacts.

(** * The cap on the deductible property tax *)

Module MinFacts.

Import NumberFacts.

Lemma ltb_nan_r (x y : float) : is_nan y = true -> (x <? y) = false.
Proof.
  intros Hy. apply is_nan_spec in Hy.
  rewrite FloatAxioms.ltb_spec, Hy. unfold SFltb.
  now destruct (Prim2SF x).
Qed.

Lemma leb_refl (x : float) : is_nan x = false -> (x <=? x) = true.
Proof.
  intros Hx. apply not_ltb_leb; trivial.
  rewrite FloatAxioms.ltb_spec. unfold SFltb.
  destruct (Prim2SF x) as [[|]|[|]| |[|] m e]; cbn;
    rewrite ?Z.compare_refl, ?Pos.compare_cont_refl; reflexivity.
Qed.

(** [Math.min(x, y)] is never above [y], also when it is NaN. *)
Lemma Math_min_not_above (x y : float) :
  is_nan y = false -> (y <? Math_min x y) = false.
Proof.
  intros Hy. unfold Math_min. rewrite Hy, orb_false_r.
  destruct (is_nan x) eqn:Hx; [ now apply ltb_nan_r | ].
  destruct (x <? y) eqn:Hxy; [ now apply ltb_irrefl_leb, ltb_leb | ].
  destruct (y <? x) eqn:Hyx; [ now apply ltb_irrefl_leb, leb_refl | ].
  destruct (is_negative x); [ assumption | now apply ltb_irrefl_leb, leb_refl ].
Qed.

(** [Math.min(x, y) <= y] as soon as neither is NaN. *)
Lemma Math_min_le (x y : float) :
  is_nan x = false -> is_nan y = false -> (Math_min x y <=? y) = true.
Proof.
  intros Hx Hy. unfold Math_min. rewrite Hx, Hy. cbn.
  destruct (x <? y) eqn:Hxy; [ now apply ltb_leb | ].
  destruct (y <? x) eqn:Hyx; [ now apply leb_refl | ].
  destruct (is_negative x); [ now apply not_ltb_leb | now apply leb_refl ].
Qed.

End MinFacts.

Section OwnerFacts.

Context `{Host}.

(** C6, as the code has it: in the owner scenario
    [deductiblePropTax = Math.min(annualPropertyTax, 10000)], where
    [annualPropertyTax] is the proforma's own field,
    [purchasePrice * propertyTaxPercent].  The deduction is never above
    10000, and it is at most 10000 whenever the property tax is not NaN. *)
Theorem owner_deductiblePropTax (a : Assumptions) (p : PersonalInfo) :
  exists o, calculateProforma a p owner = Owner o /\
    let tax := BaseProforma.annualPropertyTax (OwnerProforma.base o) in
    tax = purchasePrice a * propertyTaxPercent a /\
    OwnerProforma.deductiblePropTax o = Math_min tax 10000 /\
    (10000 <? OwnerProforma.deductiblePropTax o) = false /\
    (is_nan tax = false ->
     (OwnerProforma.deductiblePropTax o <=? 10000) = true).
Proof.
  eexists. split; [ reflexivity | cbn ].
  split; [ reflexivity | ]. split; [ reflexivity | ]. split.
  - now apply MinFacts.Math_min_not_above.
  - intros Hnan. now apply MinFacts.Math_min_le.
Qed.

End OwnerFacts.

(** C6 as stated fails: with a price that is NaN the property tax is NaN,
    [Math.min(NaN, 10000)] is NaN, and [NaN <= 10000] is false. *)
Lemma owner_deductiblePropTax_nan :
  exists o,
    calculateProforma (defaultsWithPurchase nan 0.20) defaultPersonal owner = Owner o /\
    is_nan (OwnerProforma.deductiblePropTax o) = true /\
    (OwnerProforma.deductiblePropTax o <=? 10000) = false.
Proof. eexists. split; [ reflexivity | split; reflexivity ]. Qed.

(** C7 as stated fails: [purchasePrice * (1 - downPaymentPercent)] is not the
    loan amount of the code, [purchasePrice - purchasePrice *
    downPaymentPercent], once both are rounded.  At a price of 500000 and 7%
    down the code has a loan of 465000 and a first-year interest of
    [465000 * 0.0675]; the claim's loan is 464999.99999999994. *)
Lemma year1Interest_rounding :
  let a := defaultsWithPurchase 500000 0.07 in
  let pf := calculateProforma a defaultPersonal rental in
  loanAmount a = 465000 /\
  purchasePrice a * (1 - downPaymentPercent a) = 464999.99999999994 /\
  (Proforma.year1Interest pf =?
   purchasePrice a * (1 - downPaymentPercent a) * interestRate a) = false.
Proof. repeat split; reflexivity. Qed.

(** * The simulator *)

Module HashFacts.

Import NumberFacts.

Lemma charCodeAt0_not_negative_zero (char : ascii) :
  Prim2SF (charCodeAt0 char) <> S754_zero true.
Proof.
  destruct char as [[|] [|] [|] [|] [|] [|] [|] [|]]; vm_compute; discriminate.
Qed.

(** The hash adds the character codes from the left, so the order of the
    first two characters does not matter. *)
Lemma addressHash_swap (c1 c2 : ascii) (rest : string) :
  addressHash (String c1 (String c2 rest)) =
  addressHash (String c2 (String c1 rest)).
Proof.
  unfold addressHash. cbn [list_ascii_of_string fold_left].
  rewrite !add_zero_l by apply charCodeAt0_not_negative_zero.
  now rewrite (add_comm (charCodeAt0 c1) (charCodeAt0 c2)).
Qed.

End HashFacts.

Section SimulatorFacts.

Context `{Host}.

(** Of the address, [simulatePropertyData] reads the hash and nothing
    else. *)
Lemma simulatePropertyData_same_hash (address1 address2 : string)
    (beds baths year : float) :
  addressHash address1 = addressHash address2 ->
  simulatePropertyData
    {| address := address1; beds := beds; baths := baths; year := year |} =
  simulatePropertyData
    {| address := address2; beds := beds; baths := baths; year := year |}.
Proof.
  intros Hhash.
  unfold simulatePropertyData, generateSeed, calculateRealisticPrice,
    calculateRealisticRent, calculateAirbnbRate, calculateHOA,
    calculateUtilities, calculateDownPayment.
  cbn -[addressHash]. now rewrite Hhash.
Qed.

(** Swapping the first two characters of the address changes no field. *)
Corollary simulatePropertyData_swap (c1 c2 : ascii) (rest : string)
    (beds baths year : float) :
  simulatePropertyData
    {| address := String c1 (String c2 rest);
       beds := beds; baths := baths; year := year |} =
  simulatePropertyData
    {| address := String c2 (String c1 rest);
       beds := beds; baths := baths; year := year |}.
Proof. apply simulatePropertyData_same_hash, HashFacts.addressHash_swap. Qed.


End SimulatorFacts.



(** * The end-to-end example *)

Section EndToEnd.

Context `{Host}.

Variables closingCosts nightlyRate occupancy platformFee ownerRent : float.

Lemma endToEnd_monthlyPI :
  monthlyPI (endToEndAssumptions closingCosts nightlyRate occupancy platformFee ownerRent) =
  endToEndPayment (Math_pow (1 + 0.065 / 12) (30 * 12)).
Proof. reflexivity. Qed.

(** Every candidate value of the power gives a payment within one cent of
    2528.27 and of the annuity equation. *)
Lemma endToEndPayment_near_reference :
  let A := Exact.annuity 400000 (65 / 1000 / 12) 360 in
  forallb
    (fun v => within_a_cent (252827 # 100) (endToEndPayment v) &&
              within_a_cent A (endToEndPayment v))
    (within_ulps 100 (Reference.pow (1 + 0.065 / 12) (30 * 12))) = true.
Proof. vm_compute. reflexivity. Qed.

(** C8: on the end-to-end input, with a host whose
    [Math.pow(1 + 0.065/12, 360)] is within 100 units in the last place of
    the correctly rounded power, the rental scenario has a loan of 400000, a
    monthly payment within one cent of 2528.27 and within one cent of the
    annuity equation at [r = 0.065/12], [n = 360], a gross potential income
    of 36000, a vacancy loss of 1800 and an effective gross income of
    34200. *)
Theorem endToEnd_rental :
  pow_within_ulps 100 (1 + 0.065 / 12) (30 * 12) ->
  let a := endToEndAssumptions closingCosts nightlyRate occupancy platformFee ownerRent in
  loanAmount a = 400000 /\
  (Qabs (exact_value (monthlyPI a) - (252827 # 100)) <= 1 # 100)%Q /\
  (Qabs (exact_value (monthlyPI a) - Exact.annuity 400000 (65 / 1000 / 12) 360)
   <= 1 # 100)%Q /\
  exists r, calculateProforma a endToEndPersonal rental = Rental r /\
    RentalProforma.annualMortgagePayment r = monthlyPI a * 12 /\
    RentalProforma.grossPotentialIncome r = 36000 /\
    RentalProforma.vacancyLoss r = 1800 /\
    RentalProforma.effectiveGrossIncome r = 34200.
Proof.
  intros Hpow a.
  pose proof endToEndPayment_near_reference as Hall. cbv zeta in Hall.
  rewrite forallb_forall in Hall. specialize (Hall _ Hpow).
  apply andb_prop in Hall. destruct Hall as [Hcent Hannuity].
  unfold within_a_cent in Hcent, Hannuity.
  apply Qle_bool_iff in Hcent, Hannuity.
  unfold a. rewrite endToEnd_monthlyPI.
  split; [ reflexivity | ]. split; [ exact Hcent | ]. split; [ exact Hannuity | ].
  eexists. split; [ reflexivity | ]. repeat split.
Qed.

End EndToEnd.

(** The reference host returns the correctly rounded power itself. *)
Lemma reference_pow_within_ulps (k : nat) (x y : float) :
  pow_within_ulps (H := Reference.host) k x y.
Proof. left. reflexivity. Qed.

(** The theorem on the reference host, with the remaining fields of the
    first version of [defaultAssumptions]. *)
Lemma endToEnd_rental_witness :
  let a := endToEndAssumptions 0.03 250 0.65 0.03 3200 in
  loanAmount a = 400000 /\
  (Qabs (exact_value (monthlyPI a) - (252827 # 100)) <= 1 # 100)%Q /\
  (Qabs (exact_value (monthlyPI a) - Exact.annuity 400000 (65 / 1000 / 12) 360)
   <= 1 # 100)%Q /\
  exists r, calculateProforma a endToEndPersonal rental = Rental r /\
    RentalProforma.annualMortgagePayment r = monthlyPI a * 12 /\
    RentalProforma.grossPotentialIncome r = 36000 /\
    RentalProforma.vacancyLoss r = 1800 /\
    RentalProforma.effectiveGrossIncome r = 34200.
Proof.
  apply (endToEnd_rental (H := Reference.host) 0.03 250 0.65 0.03 3200).
  apply reference_pow_within_ulps.
Defined.

(** The theorem at four inputs, a loss and a gain in each scenario: the
    defaults lose in both, a rent of 10000 and a nightly rate of 600 gain. *)
Lemma rental_taxBenefit_witness :
  (exists r,
     calculateProforma defaultAssumptions defaultPersonal rental = Rental r /\
     RentalProforma.netTaxableIncome r = -23100.936363636371 /\
     RentalProforma.taxBenefit r = 6930.2809090909113) /\
  (exists r,
     calculateProforma (setField Key.monthlyRent 10000 defaultAssumptions)
       defaultPersonal rental = Rental r /\
     RentalProforma.netTaxableIncome r = 47943.863636363632 /\
     RentalProforma.taxBenefit r = -14383.15909090909) /\
  (exists r,
     calculateProforma defaultAssumptions defaultPersonal airbnb = Rental r /\
     RentalProforma.netTaxableIncome r = -9261.70636363636 /\
     RentalProforma.taxBenefit r = 2778.5119090909079) /\
  (exists r,
     calculateProforma (setField Key.avgNightlyRate 600 defaultAssumptions)
       defaultPersonal airbnb = Rental r /\
     RentalProforma.netTaxableIncome r = 72110.663636363635 /\
     RentalProforma.taxBenefit r = -21633.199090909089).
Proof.
  repeat split.
  - destruct (rental_taxBenefit (H := Reference.host)
                defaultAssumptions defaultPersonal rental)
      as (r & Hr & Hincome & Hloss & _); [ discriminate | ].
    exists r. split; [ exact Hr | split; [ exact Hincome | exact (Hloss eq_refl) ] ].
  - destruct (rental_taxBenefit (H := Reference.host)
                (setField Key.monthlyRent 10000 defaultAssumptions)
                defaultPersonal rental)
      as (r & Hr & Hincome & _ & Hgain); [ discriminate | ].
    exists r. split; [ exact Hr | split; [ exact Hincome | ] ].
    exact (proj2 (Hgain eq_refl) eq_refl).
  - destruct (rental_taxBenefit (H := Reference.host)
                defaultAssumptions defaultPersonal airbnb)
      as (r & Hr & Hincome & Hloss & _); [ discriminate | ].
    exists r. split; [ exact Hr | split; [ exact Hincome | exact (Hloss eq_refl) ] ].
  - destruct (rental_taxBenefit (H := Reference.host)
                (setField Key.avgNightlyRate 600 defaultAssumptions)
                defaultPersonal airbnb)
      as (r & Hr & Hincome & _ & Hgain); [ discriminate | ].
    exists r. split; [ exact Hr | split; [ exact Hincome | ] ].
    exact (proj2 (Hgain eq_refl) eq_refl).
Defined.

(** * Special values

    How NaN, the infinities and the signs travel through the operations. *)

Module SpecialValues.

Import NumberFacts.

Lemma Prim2SF_nan : Prim2SF nan = S754_nan.
Proof. reflexivity. Qed.

Ltac nan_case x := to_spec; rewrite Prim2SF_nan; now destruct (Prim2SF x).

Lemma add_nan_l (x : float) : nan + x = nan.
Proof. nan_case x. Qed.
Lemma add_nan_r (x : float) : x + nan = nan.
Proof. nan_case x. Qed.
Lemma sub_nan_l (x : float) : nan - x = nan.
Proof. nan_case x. Qed.
Lemma sub_nan_r (x : float) : x - nan = nan.
Proof. nan_case x. Qed.
Lemma mul_nan_l (x : float) : nan * x = nan.
Proof. nan_case x. Qed.
Lemma mul_nan_r (x : float) : x * nan = nan.
Proof. nan_case x. Qed.
Lemma div_nan_l (x : float) : nan / x = nan.
Proof. apply Prim2SF_inj. rewrite div_spec, Prim2SF_nan. now destruct (Prim2SF x). Qed.
Lemma div_nan_r (x : float) : x / nan = nan.
Proof. apply Prim2SF_inj. rewrite div_spec, Prim2SF_nan. now destruct (Prim2SF x). Qed.

Lemma if_same {A : Type} (b : bool) (x : A) : (if b then x else x) = x.
Proof. now destruct b. Qed.

Create Rewrite HintDb nan.

#[global] Hint Rewrite add_nan_l add_nan_r sub_nan_l sub_nan_r
  mul_nan_l mul_nan_r div_nan_l div_nan_r @if_same : nan.

(** A number is not finite exactly when it is NaN or an infinity. *)
Lemma is_finite_false (x : float) :
  is_finite x = false <->
  Prim2SF x = S754_nan \/ exists s, Prim2SF x = S754_infinity s.
Proof.
  unfold is_finite, is_nan, is_infinity.
  rewrite !FloatAxioms.eqb_spec, abs_spec. unfold SFeqb.
  destruct (Prim2SF x) as [[|]|[|]| |[|] m e]; cbn;
    rewrite ?Z.compare_refl, ?Pos.compare_cont_refl; cbn;
    split; try discriminate; try reflexivity; eauto;
    intros [Hx | [s Hx]]; discriminate Hx.
Qed.

Lemma is_nan_not_finite (x : float) : is_nan x = true -> is_finite x = false.
Proof. unfold is_finite. now intros ->. Qed.

(** Adding anything to a number that is not finite leaves it not finite. *)
Lemma add_not_finite (x y : float) :
  is_finite x = false -> is_finite (x + y) = false.
Proof.
  rewrite !is_finite_false, add_spec.
  intros [Hx | [s Hx]]; rewrite Hx.
  - left. now destruct (Prim2SF y).
  - destruct (Prim2SF y) as [sy|sy| |sy my ey]; cbn; eauto.
    destruct s, sy; eauto.
Qed.

Lemma add_not_finite_r (x y : float) :
  is_finite y = false -> is_finite (x + y) = false.
Proof. rewrite add_comm. apply add_not_finite. Qed.

(** The sign that rounding gives: the one it was asked for. *)
Lemma binary_round_aux_sign (s : bool) (m e : Z) (l : location) :
  has_sign s (binary_round_aux prec emax s m e l).
Proof.
  unfold binary_round_aux.
  destruct (shr_fexp prec emax m e l) as [mrs e'].
  destruct (shr_fexp prec emax _ e' loc_Exact) as [mrs' e''].
  destruct (shr_m mrs'); cbn; trivial.
  match goal with |- context [if ?b then _ else _] => destruct b end; reflexivity.
Qed.

Lemma SFmul_sign (x y : spec_float) (sx sy : bool) :
  has_sign sx x -> has_sign sy y -> has_sign (xorb sx sy) (SFmul prec emax x y).
Proof.
  destruct x as [s1|s1| |s1 m1 e1], y as [s2|s2| |s2 m2 e2]; cbn;
    try (intros -> ->; reflexivity); trivial.
  intros -> ->. apply binary_round_aux_sign.
Qed.

(** A number with the sign bit clear is not below zero, one with the sign
    bit set is not above zero; NaN is neither. *)
Lemma not_below_zero (x : float) :
  has_sign false (Prim2SF x) -> (x <? 0) = false.
Proof.
  rewrite FloatAxioms.ltb_spec, Prim2SF_zero. unfold SFltb.
  destruct (Prim2SF x) as [s|s| |s m e]; cbn; trivial; now intros ->.
Qed.

Lemma not_above_zero (x : float) :
  has_sign true (Prim2SF x) \/ (x =? 0) = true -> (0 <? x) = false.
Proof.
  rewrite FloatAxioms.ltb_spec, FloatAxioms.eqb_spec, Prim2SF_zero.
  unfold SFltb, SFeqb.
  destruct (Prim2SF x) as [s|s| |s m e]; cbn; trivial;
    intros [-> | Hz]; trivial; try discriminate Hz.
  all: now destruct s.
Qed.

(** A number that is at least zero is a zero or has the sign bit clear. *)
Lemma nonnegative_sign (x : float) :
  (0 <=? x) = true ->
  (exists s, Prim2SF x = S754_zero s) \/
  (has_sign false (Prim2SF x) /\ Prim2SF x <> S754_nan).
Proof.
  rewrite FloatAxioms.leb_spec, Prim2SF_zero. unfold SFleb.
  destruct (Prim2SF x) as [s|s| |s m e]; cbn; eauto; try discriminate;
    destruct s; try discriminate; intros _; right; split; congruence.
Qed.

Lemma abs_sign (x : float) : has_sign false (Prim2SF (abs x)).
Proof. rewrite abs_spec. now destruct (Prim2SF x). Qed.

(** Dividing by a zero never gives a finite number. *)
Lemma div_zero_not_finite (x y : float) :
  (y =? 0) = true -> is_finite (x / y) = false.
Proof.
  rewrite FloatAxioms.eqb_spec, Prim2SF_zero, is_finite_false, div_spec.
  unfold SFeqb.
  destruct (Prim2SF y) as [sy|sy| |sy my ey] eqn:Hy; cbn;
    try discriminate; try (destruct sy; discriminate).
  intros _. destruct (Prim2SF x) as [sx|sx| |sx mx ex]; cbn; eauto.
Qed.

End SpecialValues.

Module SignFacts.

Import NumberFacts SpecialValues.

(** [0 - y] for a [y] that is a zero or has the sign bit clear. *)
Lemma zero_sub_not_above (y : float) :
  (exists s, Prim2SF y = S754_zero s) \/ has_sign false (Prim2SF y) ->
  (0 <? 0 - y) = false.
Proof.
  intros Hy. apply not_above_zero.
  rewrite FloatAxioms.eqb_spec, sub_spec, Prim2SF_zero. unfold SFeqb.
  destruct Hy as [[s Hy] | Hy]; [ rewrite Hy; right; now destruct s | ].
  destruct (Prim2SF y) as [s|s| |s m e]; cbn in Hy |- *; subst; auto.
Qed.

(** The product of a number with the sign bit clear and a number that is at
    least zero is not below zero. *)
Lemma mul_not_below (x c : float) :
  has_sign false (Prim2SF x) -> (0 <=? c) = true ->
  has_sign false (Prim2SF (x * c)) \/ exists s, Prim2SF (x * c) = S754_zero s.
Proof.
  intros Hx Hc. rewrite mul_spec.
  destruct (nonnegative_sign c Hc) as [[s Hz] | [Hs _]].
  - rewrite Hz. destruct (Prim2SF x) as [sx|sx| |sx mx ex]; cbn; eauto.
  - left. exact (SFmul_sign _ _ false false Hx Hs).
Qed.

Lemma zero_or_signed_not_below (x : float) :
  has_sign false (Prim2SF x) \/ (exists s, Prim2SF x = S754_zero s) ->
  (x <? 0) = false.
Proof.
  intros [Hx | [s Hx]]; [ now apply not_below_zero | ].
  rewrite FloatAxioms.ltb_spec, Hx. reflexivity.
Qed.

(** A number above zero has the sign bit clear. *)
Lemma positive_sign (x : float) : (0 <? x) = true -> has_sign false (Prim2SF x).
Proof.
  rewrite FloatAxioms.ltb_spec, Prim2SF_zero. unfold SFltb.
  destruct (Prim2SF x) as [s|s| |s m e]; cbn; trivial; try discriminate;
    now destruct s.
Qed.

End SignFacts.

(** * More of the proforma *)

Section ProformaEdges.

Context `{Host}.

Variables (a : Assumptions) (p : PersonalInfo).

(** X1: a scenario's proforma does not change when a field that its branch
    does not read is edited. *)
Theorem calculateProforma_ignores_unread (s : Scenario) (key : Key.t) (value : float) :
  In key (unread s) ->
  calculateProforma (setField key value a) p s = calculateProforma a p s.
Proof.
  destruct a. destruct s; cbn [unread]; intros Hin;
    repeat (destruct Hin as [<- | Hin]; [ reflexivity | ]);
    contradiction.
Qed.

(** X2: in the rental and the Airbnb scenario a net taxable income that is
    zero or NaN gives a tax benefit of exactly [+0]: the NaN does not reach
    [taxBenefit], and the cash flow after tax is the one before tax plus
    zero. *)
Theorem taxBenefit_zero_income (s : Scenario) :
  s <> owner ->
  exists r, calculateProforma a p s = Rental r /\
    let income := RentalProforma.netTaxableIncome r in
    ((income =? 0) = true \/ is_nan income = true ->
     RentalProforma.taxBenefit r = 0 /\
     RentalProforma.cashFlowAfterTax r = RentalProforma.cashFlowBeforeTax r + 0).
Proof.
  intros Hs.
  assert (Hcmp : forall x, (x =? 0) = true \/ is_nan x = true ->
                   (x <? 0) = false /\ (0 <? x) = false).
  { intros x. rewrite NumberFacts.is_nan_spec, FloatAxioms.eqb_spec,
      !FloatAxioms.ltb_spec, NumberFacts.Prim2SF_zero.
    unfold SFeqb, SFltb.
    destruct (Prim2SF x) as [sx|sx| |sx mx ex]; cbn; intros [Hx | Hx];
      try discriminate Hx; auto; destruct sx; discriminate Hx. }
  destruct s; [ | | contradiction ];
    (eexists; split; [ reflexivity | cbn; intros Hincome ]);
    destruct (Hcmp _ Hincome) as [-> ->]; split; reflexivity.
Qed.

(** X3: with a combined tax rate that is at least zero, the tax benefit is
    negative only when the net taxable income is positive, and positive
    only when it is negative. *)
Theorem taxBenefit_sign_follows_income (s : Scenario) :
  s <> owner ->
  (0 <=? federalTaxRate p + stateTaxRate p) = true ->
  exists r, calculateProforma a p s = Rental r /\
    ((RentalProforma.taxBenefit r <? 0) = true ->
     (0 <? RentalProforma.netTaxableIncome r) = true) /\
    ((0 <? RentalProforma.taxBenefit r) = true ->
     (RentalProforma.netTaxableIncome r <? 0) = true).
Proof.
  intros Hs Hrate.
  assert (Hsign : forall income,
            let benefit :=
              (if income <? 0 then Math_abs income * (federalTaxRate p + stateTaxRate p) else 0) -
              (if 0 <? income then income * (federalTaxRate p + stateTaxRate p) else 0) in
            ((benefit <? 0) = true -> (0 <? income) = true) /\
            ((0 <? benefit) = true -> (income <? 0) = true)).
  { intros income benefit. unfold benefit.
    destruct (income <? 0) eqn:Hneg.
    - rewrite (NumberFacts.ltb_irrefl_leb _ _ (NumberFacts.ltb_leb _ _ Hneg)),
        NumberFacts.sub_zero_r.
      split; [ | reflexivity ].
      unfold Math_abs.
      rewrite (SignFacts.zero_or_signed_not_below _
                 (SignFacts.mul_not_below _ _ (SpecialValues.abs_sign income) Hrate)).
      discriminate.
    - destruct (0 <? income) eqn:Hpos.
      + split; [ reflexivity | ].
        rewrite SignFacts.zero_sub_not_above; [ discriminate | ].
        destruct (SignFacts.mul_not_below _ _ (SignFacts.positive_sign _ Hpos) Hrate);
          auto.
      + split; discriminate. }
  destruct s; [ | | contradiction ];
    (eexists; split; [ reflexivity | cbn; apply Hsign ]).
Qed.

(** X4: a purchase price of zero gives a cap rate that is not finite, and a
    total cash needed of zero (nothing down, no closing costs) gives a
    cash-on-cash return that is not finite. *)
Theorem rental_ratios_not_finite (s : Scenario) :
  s <> owner ->
  exists r, calculateProforma a p s = Rental r /\
    ((purchasePrice a =? 0) = true ->
     is_finite (RentalProforma.capRate r) = false) /\
    ((BaseProforma.totalCashNeeded (RentalProforma.base r) =? 0) = true ->
     is_finite (RentalProforma.cashOnCashReturn r) = false).
Proof.
  intros Hs.
  destruct s; [ | | contradiction ];
    (eexists; split; [ reflexivity | cbn; split ]);
    apply SpecialValues.div_zero_not_finite.
Qed.

End ProformaEdges.

(** The frame theorem at the default assumptions: a nightly rate of 999 does
    not touch the rental proforma. *)
Lemma calculateProforma_ignores_unread_witness :
  calculateProforma (setField Key.avgNightlyRate 999 defaultAssumptions)
    defaultPersonal rental =
  calculateProforma defaultAssumptions defaultPersonal rental.
Proof.
  apply (calculateProforma_ignores_unread (H := Reference.host)
           defaultAssumptions defaultPersonal rental Key.avgNightlyRate 999).
  left. reflexivity.
Defined.

(** * Whole numbers in binary64

    Sums and products of non-negative integers are exact as long as the
    result stays below [2^53]: nothing is rounded away. *)

Module ExactIntegers.

Local Open Scope Z_scope.

Lemma iter_pos_iter {A} (f : A -> A) (p : positive) (x : A) :
  SpecFloat.iter_pos f p x = Pos.iter f x p.
Proof.
  revert x. induction p as [p IH | p IH | ]; intros x; cbn.
  - rewrite !IH. now rewrite <- !Pos.iter_swap.
  - now rewrite !IH.
  - reflexivity.
Qed.

Lemma shr_exact (t n : positive) :
  SpecFloat.iter_pos shr_1 t {| shr_m := Z.pos (Pos.iter xO n t); shr_r := false; shr_s := false |} =
  {| shr_m := Z.pos n; shr_r := false; shr_s := false |}.
Proof.
  rewrite iter_pos_iter.
  induction t as [ | t IH] using Pos.peano_ind.
  - reflexivity.
  - rewrite Pos.iter_succ_r, Pos.iter_succ. cbn. exact IH.
Qed.

Lemma digits_iter (n t : positive) :
  digits2_pos (Pos.iter xO n t) = (digits2_pos n + t)%positive.
Proof.
  induction t as [ | t IH] using Pos.peano_ind.
  - cbn. lia.
  - rewrite Pos.iter_succ. cbn. rewrite IH. lia.
Qed.

(** A mantissa of 53 bits followed by [t] zero bits rounds to itself. *)
Lemma round_exact (s : bool) (n : positive) (t : N) (e : Z) :
  digits2_pos n = 53%positive -> -1074 <= e <= 971 ->
  binary_round_aux prec emax s (Z.pos (Pos.shiftl n t)) (e - Z.of_N t) loc_Exact =
  S754_finite s n e.
Proof.
  intros Hd He.
  assert (Hfexp : fexp prec emax (53 + e) = e).
  { unfold fexp, emin, prec, emax. lia. }
  assert (Hsecond : shr_fexp prec emax (Z.pos n) e loc_Exact =
                    ({| shr_m := Z.pos n; shr_r := false; shr_s := false |}, e)).
  { unfold shr_fexp. cbn [Zdigits2]. rewrite Hd, Hfexp, Z.sub_diag. reflexivity. }
  assert (Hfirst : shr_fexp prec emax (Z.pos (Pos.shiftl n t)) (e - Z.of_N t) loc_Exact =
                   ({| shr_m := Z.pos n; shr_r := false; shr_s := false |}, e)).
  { destruct t as [ | t]; cbn [Pos.shiftl Z.of_N].
    - rewrite Z.sub_0_r. exact Hsecond.
    - unfold shr_fexp. cbn [Zdigits2]. rewrite digits_iter, Hd.
      replace (Z.pos (53 + t) + (e - Z.pos t)) with (53 + e) by lia.
      rewrite Hfexp.
      replace (e - (e - Z.pos t)) with (Z.pos t) by lia.
      cbn [shr shr_record_of_loc]. rewrite shr_exact. f_equal. lia. }
  unfold binary_round_aux. rewrite Hfirst. cbn [shr_m loc_of_shr_record round_nearest_even].
  rewrite Hsecond. cbn [shr_m].
  replace (e <=? emax - prec) with true; [ reflexivity | ].
  symmetry. apply Z.leb_le. unfold emax, prec. lia.
Qed.


Lemma shiftl_value (c : positive) (k : N) :
  Z.pos (Pos.shiftl c k) = Z.pos c * 2 ^ Z.of_N k.
Proof.
  destruct k as [ | t]; cbn [Pos.shiftl Z.of_N].
  - now rewrite Z.pow_0_r, Z.mul_1_r.
  - induction t as [ | t IH] using Pos.peano_ind.
    + cbn [Pos.iter]. rewrite Z.pow_1_r. lia.
    + rewrite Pos.iter_succ, Pos2Z.inj_succ, Z.pow_succ_r by lia.
      rewrite Pos2Z.inj_xO, IH. ring.
Qed.

Lemma shiftl_shiftl (c : positive) (j k : N) :
  Pos.shiftl (Pos.shiftl c j) k = Pos.shiftl c (j + k).
Proof.
  apply Pos2Z.inj. rewrite !shiftl_value, N2Z.inj_add, Z.pow_add_r by lia. ring.
Qed.

Lemma dgt_shiftl (c : positive) (k : N) : dgt (Pos.shiftl c k) = dgt c + Z.of_N k.
Proof.
  unfold dgt. destruct k as [ | t]; cbn [Pos.shiftl Z.of_N]; [ lia | ].
  rewrite digits_iter. lia.
Qed.

Lemma dgt_pos (p : positive) : 1 <= dgt p.
Proof. unfold dgt. lia. Qed.

(** An integer of at most 53 bits, written with [k] more zero bits and the
    exponent [-k], rounds to its canonical form. *)
Lemma round_integer (s : bool) (c : positive) (k : N) :
  dgt c <= 53 ->
  binary_round prec emax s (Pos.shiftl c k) (- Z.of_N k) = canon s c.
Proof.
  intros Hd. pose proof (dgt_pos c) as Hpos.
  unfold binary_round.
  change (Z.pos (digits2_pos (Pos.shiftl c k))) with (dgt (Pos.shiftl c k)).
  rewrite dgt_shiftl.
  replace (fexp prec emax (dgt c + Z.of_N k + - Z.of_N k)) with (dgt c - 53)
    by (unfold fexp, emin, prec, emax; lia).
  unfold shl_align.
  set (n := Pos.shiftl c (Z.to_N (53 - dgt c))).
  assert (Hn : digits2_pos n = 53%positive).
  { apply Pos2Z.inj. change (dgt n = 53). unfold n. rewrite dgt_shiftl. lia. }
  destruct (dgt c - 53 - - Z.of_N k) as [ | d | d] eqn:Hk.
  - replace (Pos.shiftl c k) with (Pos.shiftl n 0).
    + replace (- Z.of_N k) with (dgt c - 53 - Z.of_N 0) by lia.
      apply round_exact; [ exact Hn | lia ].
    + change (Pos.shiftl n 0) with n. unfold n. f_equal. lia.
  - replace (Pos.shiftl c k) with (Pos.shiftl n (N.pos d)).
    + replace (- Z.of_N k) with (dgt c - 53 - Z.of_N (N.pos d)) by lia.
      apply round_exact; [ exact Hn | lia ].
    + unfold n. rewrite shiftl_shiftl. f_equal. lia.
  - replace (Pos.iter xO (Pos.shiftl c k) d) with (Pos.shiftl n 0).
    + replace (dgt c - 53) with (dgt c - 53 - Z.of_N 0) at 1 by lia.
      apply round_exact; [ exact Hn | lia ].
    + change (Pos.shiftl n 0) with n. unfold n.
      change (Pos.iter xO (Pos.shiftl c k) d) with (Pos.shiftl (Pos.shiftl c k) (N.pos d)).
      rewrite shiftl_shiftl. f_equal. lia.
Qed.

Lemma digits_size (p : positive) : digits2_pos p = Pos.size p.
Proof.
  induction p as [p IH | p IH | ]; [ | | reflexivity ];
    change (Pos.succ (digits2_pos p) = Pos.succ (Pos.size p)); now rewrite IH.
Qed.

Lemma dgt_bound (p : positive) : Z.pos p < 2 ^ 53 -> dgt p <= 53.
Proof.
  intros Hp. unfold dgt.
  rewrite digits_size.
  pose proof (Pos.size_le p) as Hle.
  apply Pos2Z.pos_le_pos in Hle. rewrite Pos2Z.inj_pow in Hle.
  change (Z.pos p~0) with (2 * Z.pos p) in Hle.
  destruct (Z_le_gt_dec (Z.pos (Pos.size p)) 53) as [ | Hgt]; [ assumption | exfalso ].
  assert (2 ^ 54 <= 2 ^ Z.pos (Pos.size p)) by (apply Z.pow_le_mono_r; lia).
  assert (2 ^ 54 = 2 * 2 ^ 53) by reflexivity.
  lia.
Qed.

Lemma value_bound (p : positive) : dgt p <= 53 -> Z.pos p < 2 ^ 63.
Proof.
  intros Hd. unfold dgt in Hd.
  rewrite digits_size in Hd.
  pose proof (Pos.size_gt p) as Hgt.
  apply Pos2Z.pos_lt_pos in Hgt. rewrite Pos2Z.inj_pow in Hgt.
  assert (2 ^ Z.pos (Pos.size p) <= 2 ^ 53) by (apply Z.pow_le_mono_r; lia).
  assert (2 ^ 53 < 2 ^ 63) by reflexivity. lia.
Qed.

Lemma Prim2SF_of_Z_pos (p : positive) :
  dgt p <= 53 -> Prim2SF (Number.of_Z (Z.pos p)) = canon false p.
Proof.
  intros Hd. cbn [Number.of_Z].
  rewrite of_uint63_spec, Uint63.of_Z_spec, Z.mod_small.
  - cbn [binary_normalize]. exact (round_integer false p 0 Hd).
  - pose proof (value_bound p Hd). change Uint63Axioms.wB with (2 ^ 63). lia.
Qed.

Lemma SFadd_canon (a b : positive) :
  (dgt a <= 53)%Z -> (dgt b <= 53)%Z -> dgt (a + b) <= 53 ->
  SFadd prec emax (canon false a) (canon false b) = canon false (a + b).
Proof.
  intros Ha Hb Hab. pose proof (dgt_pos a). pose proof (dgt_pos b).
  unfold canon at 1 2. cbn [SFadd].
  set (ez := Z.min (dgt a - 53) (dgt b - 53)).
  assert (Halign : forall c, (dgt c <= 53)%Z -> (ez <= dgt c - 53)%Z ->
            fst (shl_align (Pos.shiftl c (Z.to_N (53 - dgt c))) (dgt c - 53) ez) =
            Pos.shiftl c (Z.to_N (- ez))).
  { intros c Hc Hez. pose proof (dgt_pos c). unfold shl_align.
    destruct (ez - (dgt c - 53))%Z as [ | d | d] eqn:Hd; cbn [fst].
    - f_equal. lia.
    - lia.
    - change (Pos.iter xO ?x d) with (Pos.shiftl x (N.pos d)).
      rewrite shiftl_shiftl. f_equal. lia. }
  rewrite (Halign a), (Halign b) by (unfold ez; lia).
  cbn [cond_Zopp].
  replace (Z.pos (Pos.shiftl a (Z.to_N (- ez))) + Z.pos (Pos.shiftl b (Z.to_N (- ez))))%Z
    with (Z.pos (Pos.shiftl (a + b) (Z.to_N (- ez))))
    by (rewrite !shiftl_value, Pos2Z.inj_add; ring).
  cbn [binary_normalize].
  replace ez with (- Z.of_N (Z.to_N (- ez)))%Z at 2 by (unfold ez; lia).
  now apply round_integer.
Qed.

(** The product of two integers has at least the digits of both, less one. *)
Lemma dgt_mul (a b : positive) : dgt a + dgt b - 1 <= dgt (a * b).
Proof.
  unfold dgt. rewrite !digits_size.
  pose proof (Pos.size_le a) as Ha. pose proof (Pos.size_le b) as Hb.
  pose proof (Pos.size_gt (a * b)) as Hab.
  apply Pos2Z.pos_le_pos in Ha, Hb. apply Pos2Z.pos_lt_pos in Hab.
  rewrite Pos2Z.inj_pow in Ha, Hb, Hab.
  change (Z.pos a~0) with (2 * Z.pos a) in Ha.
  change (Z.pos b~0) with (2 * Z.pos b) in Hb.
  rewrite Pos2Z.inj_mul in Hab.
  set (da := Z.pos (Pos.size a)) in *. set (db := Z.pos (Pos.size b)) in *.
  set (dab := Z.pos (Pos.size (a * b))) in *.
  destruct (Z_le_gt_dec (da + db - 1) dab) as [ | Hgt]; [ assumption | exfalso ].
  assert (H1 : 2 ^ da * 2 ^ db <= 4 * (Z.pos a * Z.pos b)) by nia.
  assert (H2 : 2 ^ (dab + 2) <= 2 ^ (da + db))
    by (apply Z.pow_le_mono_r; lia).
  rewrite !Z.pow_add_r in H2 by (unfold da, db, dab; lia).
  change (2 ^ 2) with 4 in H2. lia.
Qed.

Lemma SFmul_canon (a b : positive) :
  dgt a <= 53 -> dgt b <= 53 -> dgt (a * b) <= 53 ->
  SFmul prec emax (canon false a) (canon false b) = canon false (a * b).
Proof.
  intros Ha Hb Hab.
  pose proof (dgt_pos a). pose proof (dgt_pos b). pose proof (dgt_mul a b) as Hmul.
  unfold canon. cbn [SFmul xorb].
  set (n := Pos.shiftl (a * b) (Z.to_N (53 - dgt (a * b)))).
  set (t := Z.to_N (53 + dgt (a * b) - dgt a - dgt b)).
  replace (Pos.shiftl a (Z.to_N (53 - dgt a)) * Pos.shiftl b (Z.to_N (53 - dgt b)))%positive
    with (Pos.shiftl n t).
  - replace (dgt a - 53 + (dgt b - 53)) with (dgt (a * b) - 53 - Z.of_N t)
      by (unfold t; lia).
    apply round_exact; [ | lia ].
    apply Pos2Z.inj. change (dgt n = 53). unfold n. rewrite dgt_shiftl. lia.
  - unfold n. rewrite shiftl_shiftl. apply Pos2Z.inj.
    rewrite Pos2Z.inj_mul, !shiftl_value, Pos2Z.inj_mul.
    replace (Z.of_N (Z.to_N (53 - dgt (a * b)) + t))
      with (Z.of_N (Z.to_N (53 - dgt a)) + Z.of_N (Z.to_N (53 - dgt b)))
      by (unfold t; lia).
    rewrite Z.pow_add_r by lia. ring.
Qed.

Local Open Scope float_scope.

Lemma of_Z_finite (p : positive) :
  (Z.pos p < 2 ^ 53)%Z ->
  exists m e, Prim2SF (Number.of_Z (Z.pos p)) = S754_finite false m e.
Proof.
  intros Hp. rewrite (Prim2SF_of_Z_pos p (dgt_bound p Hp)). unfold canon. eauto.
Qed.

(** Adding whole numbers is exact below [2^53]. *)
Lemma of_Z_add (a b : Z) :
  (0 <= a)%Z -> (0 <= b)%Z -> (a + b < 2 ^ 53)%Z ->
  Number.of_Z a + Number.of_Z b = Number.of_Z (a + b).
Proof.
  intros Ha Hb Hab. apply Prim2SF_inj. rewrite add_spec.
  destruct a as [ | a | a]; [ | | lia ]; destruct b as [ | b | b]; try lia.
  - reflexivity.
  - destruct (of_Z_finite b Hab) as (m & e & Hm).
    cbn [Z.add]. rewrite Hm. reflexivity.
  - assert (Ha' : (Z.pos a < 2 ^ 53)%Z) by lia.
    destruct (of_Z_finite a Ha') as (m & e & Hm).
    rewrite Z.add_0_r, Hm. reflexivity.
  - change (Z.pos a + Z.pos b)%Z with (Z.pos (a + b)) in *.
    rewrite !Prim2SF_of_Z_pos by (apply dgt_bound; lia).
    apply SFadd_canon; apply dgt_bound; lia.
Qed.

(** Multiplying whole numbers is exact below [2^53]. *)
Lemma of_Z_mul (a b : Z) :
  (0 <= a < 2 ^ 53)%Z -> (0 <= b < 2 ^ 53)%Z -> (a * b < 2 ^ 53)%Z ->
  Number.of_Z a * Number.of_Z b = Number.of_Z (a * b).
Proof.
  intros Ha Hb Hab. apply Prim2SF_inj. rewrite mul_spec.
  destruct a as [ | a | a]; [ | | lia ]; destruct b as [ | b | b]; try lia.
  - reflexivity.
  - destruct (of_Z_finite b (proj2 Hb)) as (m & e & Hm).
    cbn [Z.mul]. rewrite Hm. reflexivity.
  - destruct (of_Z_finite a (proj2 Ha)) as (m & e & Hm).
    rewrite Z.mul_0_r, Hm. reflexivity.
  - change (Z.pos a * Z.pos b)%Z with (Z.pos (a * b)) in *.
    rewrite !Prim2SF_of_Z_pos by (apply dgt_bound; lia).
    apply SFmul_canon; apply dgt_bound; lia.
Qed.

End ExactIntegers.

(** * The seed of the simulated data *)

Module SeedFacts.

Import SpecialValues.

Lemma code_bound (char : ascii) : (0 <= Z.of_N (N_of_ascii char) < 256)%Z.
Proof. pose proof (N_ascii_bounded char). lia. Qed.

Lemma fold_codes_le (l : list ascii) (z : Z) :
  (z <= fold_left (fun acc char => acc + Z.of_N (N_of_ascii char)) l z)%Z.
Proof.
  revert z. induction l as [ | char l IH]; intros z; cbn [fold_left]; [ lia | ].
  specialize (IH (z + Z.of_N (N_of_ascii char))%Z).
  pose proof (code_bound char). lia.
Qed.

Lemma codeSum_nonneg (address : string) : (0 <= codeSum address)%Z.
Proof. apply fold_codes_le. Qed.

(** The running sum of the reduce is the integer sum at every step. *)
Lemma fold_codes_exact (l : list ascii) (z : Z) :
  (0 <= z)%Z ->
  (fold_left (fun acc char => acc + Z.of_N (N_of_ascii char)) l z < 2 ^ 53)%Z ->
  fold_left (fun acc char => acc + charCodeAt0 char) l (Number.of_Z z) =
  Number.of_Z (fold_left (fun acc char => acc + Z.of_N (N_of_ascii char))%Z l z).
Proof.
  revert z. induction l as [ | char l IH]; intros z Hz Hsum; cbn [fold_left] in *;
    [ reflexivity | ].
  pose proof (code_bound char) as Hchar.
  pose proof (fold_codes_le l (z + Z.of_N (N_of_ascii char))) as Hle.
  unfold charCodeAt0 at 2.
  rewrite ExactIntegers.of_Z_add by lia.
  apply IH; [ lia | exact Hsum ].
Qed.

Lemma addressHash_codeSum (address : string) :
  (codeSum address < 2 ^ 53)%Z -> addressHash address = Number.of_Z (codeSum address).
Proof. intros Hsum. exact (fold_codes_exact _ 0%Z (Z.le_refl 0) Hsum). Qed.

Lemma fold_codes_permutation (l1 l2 : list ascii) :
  Permutation l1 l2 ->
  forall z,
    fold_left (fun acc char => acc + Z.of_N (N_of_ascii char))%Z l1 z =
    fold_left (fun acc char => acc + Z.of_N (N_of_ascii char))%Z l2 z.
Proof.
  induction 1 as [ | char l1 l2 _ IH | c1 c2 l | l1 l2 l3 _ IH1 _ IH2]; intros z;
    cbn [fold_left].
  - reflexivity.
  - apply IH.
  - f_equal. lia.
  - now rewrite IH1.
Qed.

Lemma addressHash_permutation (address1 address2 : string) :
  Permutation (list_ascii_of_string address1) (list_ascii_of_string address2) ->
  (codeSum address1 < 2 ^ 53)%Z ->
  addressHash address1 = addressHash address2.
Proof.
  intros Hperm Hsum.
  assert (Heq : codeSum address1 = codeSum address2)
    by exact (fold_codes_permutation _ _ Hperm 0%Z).
  rewrite !addressHash_codeSum by (rewrite <- ?Heq; exact Hsum).
  now rewrite Heq.
Qed.

Lemma generateSeed_seedSum (addr : string) (b c y : Z) :
  (0 <= b)%Z -> (0 <= c)%Z -> (0 <= y)%Z ->
  (seedSum addr b c y < 2 ^ 53)%Z ->
  generateSeed
    {| address := addr; beds := Number.of_Z b; baths := Number.of_Z c;
       year := Number.of_Z y |} =
  Number.of_Z (seedSum addr b c y).
Proof.
  intros Hb Hc Hy Hsum. pose proof (codeSum_nonneg addr) as Hcodes.
  unfold seedSum in *. unfold generateSeed. cbn [address beds baths year].
  rewrite addressHash_codeSum by lia.
  change 100 with (Number.of_Z 100). change 50 with (Number.of_Z 50).
  rewrite !ExactIntegers.of_Z_mul by lia.
  rewrite !ExactIntegers.of_Z_add by lia.
  reflexivity.
Qed.

Section WithHost.

Context `{Host}.

(** Every draw from a seed that is not finite is NaN. *)
Lemma seededRandom_not_finite (seed k min max : float) :
  is_finite seed = false -> seededRandom (seed + k) min max = nan.
Proof.
  intros Hseed. unfold seededRandom, Math_sin.
  pose proof (add_not_finite seed k Hseed) as Hk.
  unfold is_finite in Hk. apply negb_false_iff in Hk. rewrite Hk.
  now autorewrite with nan.
Qed.


End WithHost.

End SeedFacts.

Section SeedTheorems.

Context `{Host}.

(** X5: when the seed is not finite (beds, baths or year is NaN or
    infinite), [simulatePropertyData] answers NaN in sixteen fields, the
    constant 30 for the loan term and 0 for the HOA, whose coin toss
    [NaN > 0.4] is false; every field of the market context is NaN. *)
Theorem simulatePropertyData_not_finite_seed (property : Property) :
  is_finite (generateSeed property) = false ->
  simulatePropertyData property =
    {| purchasePrice := nan;
       downPaymentPercent := nan;
       interestRate := nan;
       loanTerm := 30;
       closingCostsPercent := nan;
       landValuePercent := nan;
       monthlyRent := nan;
       vacancyPercent := nan;
       avgNightlyRate := nan;
       occupancyRate := nan;
       airbnbFeePercent := nan;
       equivalentRent := nan;
       propertyTaxPercent := nan;
       homeInsurancePercent := nan;
       monthlyHOA := 0;
       maintenancePercent := nan;
       utilitiesMonthly := nan;
       mgmtFeePercent := nan |} /\
  generateMarketContext property =
    {| medianHomePrice := nan; avgRentInArea := nan;
       marketAppreciation := nan; daysOnMarket := nan |}.
Proof.
  intros Hseed.
  unfold simulatePropertyData, generateMarketContext, calculateRealisticPrice,
    calculateRealisticRent, calculateAirbnbRate, calculateOccupancyRate,
    calculatePropertyTax, calculateHomeInsurance, calculateHOA,
    calculateUtilities, calculateInterestRate, calculateDownPayment.
  cbv zeta.
  rewrite !(fun k min max =>
              SeedFacts.seededRandom_not_finite _ k min max Hseed).
  autorewrite with nan. rewrite ?SpecialValues.if_same.
  autorewrite with nan.
  change (Math_round nan) with nan.
  autorewrite with nan. rewrite ?SpecialValues.if_same.
  autorewrite with nan.
  change (Math_round nan) with nan.
  autorewrite with nan.
  split; reflexivity.
Qed.

(** X6: for an address whose character codes sum to less than [2^53] the
    hash is that sum, and for beds, baths and year that are non-negative
    whole numbers the seed is the integer
    [sum + 100 beds + 50 baths + year], with nothing rounded away. *)
Theorem generateSeed_whole_numbers (addr : string) (b c y : Z) :
  (0 <= b)%Z -> (0 <= c)%Z -> (0 <= y)%Z ->
  (seedSum addr b c y < 2 ^ 53)%Z ->
  addressHash addr = Number.of_Z (codeSum addr) /\
  generateSeed
    {| address := addr; beds := Number.of_Z b; baths := Number.of_Z c;
       year := Number.of_Z y |} =
  Number.of_Z (codeSum addr + 100 * b + 50 * c + y).
Proof.
  intros Hb Hc Hy Hsum. split.
  - apply SeedFacts.addressHash_codeSum.
    pose proof (SeedFacts.codeSum_nonneg addr). unfold seedSum in Hsum. lia.
  - rewrite SeedFacts.generateSeed_seedSum by assumption.
    unfold seedSum. f_equal. lia.
Qed.

(** X7: rearranging the characters of the address in any way changes
    neither the simulated assumptions nor the market context (for an
    address whose character codes sum to less than [2^53]). *)
Theorem simulatePropertyData_permuted_address (p q : Property) :
  Permutation (list_ascii_of_string (address p)) (list_ascii_of_string (address q)) ->
  (codeSum (address p) < 2 ^ 53)%Z ->
  beds p = beds q -> baths p = baths q -> year p = year q ->
  simulatePropertyData p = simulatePropertyData q /\
  generateMarketContext p = generateMarketContext q.
Proof.
  destruct p as [ap bp tp yp], q as [aq bq tq yq]. cbn [address beds baths year].
  intros Hperm Hsum -> -> ->.
  pose proof (SeedFacts.addressHash_permutation ap aq Hperm Hsum) as Hhash.
  split.
  - now apply simulatePropertyData_same_hash.
  - unfold generateMarketContext, generateSeed. cbn [address beds baths year].
    now rewrite Hhash.
Qed.


End SeedTheorems.

(** * The assumption editor *)

Module RoundingFacts.

Import NumberFacts SpecialValues.

Lemma shr_1_nonneg (mrs : shr_record) :
  (0 <= shr_m mrs)%Z -> (0 <= shr_m (shr_1 mrs))%Z.
Proof.
  destruct mrs as [m r s]. cbn [shr_m]. intros Hm.
  destruct m as [ | p | p]; [ | | lia ]; cbn; [ lia | ].
  destruct p; cbn; lia.
Qed.

Lemma shr_fexp_nonneg (m e : Z) (l : location) :
  (0 <= m)%Z -> (0 <= shr_m (fst (shr_fexp prec emax m e l)))%Z.
Proof.
  intros Hm. unfold shr_fexp, shr.
  assert (Hstart : (0 <= shr_m (shr_record_of_loc m l))%Z)
    by (destruct l as [ | [ | | ]]; exact Hm).
  destruct (fexp prec emax (Zdigits2 m + e) - e)%Z as [ | p | p]; cbn [fst];
    try exact Hstart.
  rewrite ExactIntegers.iter_pos_iter.
  apply Pos.iter_invariant; [ | exact Hstart ].
  intros mrs. apply shr_1_nonneg.
Qed.

Lemma round_nearest_even_nonneg (m : Z) (l : location) :
  (0 <= m)%Z -> (0 <= round_nearest_even m l)%Z.
Proof.
  intros Hm. unfold round_nearest_even.
  destruct l as [ | [ | | ]]; try destruct (Z.even m); lia.
Qed.

(** Rounding a mantissa that is not negative does not give NaN. *)
Lemma binary_round_aux_not_nan (s : bool) (m e : Z) (l : location) :
  (0 <= m)%Z -> binary_round_aux prec emax s m e l <> S754_nan.
Proof.
  intros Hm. unfold binary_round_aux.
  pose proof (shr_fexp_nonneg m e l Hm) as H1.
  destruct (shr_fexp prec emax m e l) as [mrs e']. cbn [fst] in H1.
  pose proof (shr_fexp_nonneg _ e' loc_Exact
                (round_nearest_even_nonneg _ (loc_of_shr_record mrs) H1)) as H2.
  destruct (shr_fexp prec emax _ e' loc_Exact) as [mrs' e'']. cbn [fst] in H2.
  destruct (shr_m mrs') as [ | p | p]; [ discriminate | | lia ].
  destruct (e'' <=? emax - prec)%Z; discriminate.
Qed.

(** A number divided by a finite number that is not zero is NaN only if it
    was. *)
Lemma div_not_nan (x y : float) (s : bool) (m : positive) (e : Z) :
  is_nan x = false -> Prim2SF y = S754_finite s m e -> is_nan (x / y) = false.
Proof.
  intros Hx Hy. apply is_nan_false. apply is_nan_false in Hx.
  rewrite div_spec, Hy. unfold SF64div.
  destruct (Prim2SF x) as [sx|sx| |sx mx ex]; cbn [SFdiv];
    [ discriminate | discriminate | congruence | ].
  unfold SFdiv_core_binary.
  set (e' := Z.min _ _). set (m' := match (ex - e - e')%Z with Z0 => _ | _ => _ end).
  assert (Hm' : (0 <= m')%Z).
  { unfold m'. destruct (ex - e - e')%Z; try lia.
    apply Z.shiftl_nonneg. lia. }
  destruct (Z.div_eucl m' (Z.pos m)) as [q r] eqn:Hdiv.
  apply binary_round_aux_not_nan.
  replace q with (m' / Z.pos m)%Z by (unfold Z.div; now rewrite Hdiv).
  apply Z.div_pos; lia.
Qed.

End RoundingFacts.

Module EditorFacts.

(** [{ ...prev, [key]: value }] read at [key] and at another key. *)
Lemma getField_setField (key : Key.t) (value : float) (prev : Assumptions) :
  getField key (setField key value prev) = value.
Proof. now destruct key. Qed.

Lemma getField_setField_other (key key' : Key.t) (value : float) (prev : Assumptions) :
  key' <> key -> getField key' (setField key value prev) = getField key' prev.
Proof. intros Hne. destruct key, key'; try reflexivity; now contradiction Hne. Qed.

End EditorFacts.

Section EditorTheorems.

Context `{TextHost} `{Host}.

(** X9: a rate typed into the text box of a personal slider is divided by
    100 twice, once by the slider and once by [handlePersonalChange], when
    the host reads back the number that it printed; through
    [handleSliderChange] the same text is divided once. *)
Theorem personal_slider_divides_twice
    (key : PersonalKey.t) (text : string) (prev : PersonalInfo)
    (akey : Key.t) (aprev : Assumptions) :
  let val := or_zero (parseFloat text) / 100 in
  Number_toString val <> EmptyString ->
  parseFloat (Number_toString val) = val ->
  Number_of_string (Number_toString val) = val ->
  getPersonal key (handlePersonalChange key (Text (handleTextChange true text)) prev) =
    or_zero (parseFloat text) / 100 / 100 /\
  getField akey
    (handleSliderChange akey (Number_of_string (handleTextChange true text)) aprev) =
    or_zero (parseFloat text) / 100.
Proof.
  intros val Hshown Hparse Hnumber.
  unfold handleTextChange, textChangeValue. fold val. split.
  - unfold handlePersonalChange.
    destruct (Number_toString val) as [ | c s] eqn:Hs; [ contradiction | ].
    rewrite Hparse. now destruct key.
  - rewrite Hnumber. unfold handleSliderChange. now destruct akey.
Qed.

(** X10: [handleAssumptionChange] divides what is typed by 100 for the
    twelve keys whose name contains Percent or Rate, the nightly rate in
    dollars among them, and stores [Number] of the text for the six others;
    the Airbnb gross potential income is computed from the hundredth of the
    nightly rate that was typed. *)
Theorem handleAssumptionChange_by_key
    (key : Key.t) (c : ascii) (s : string) (prev : Assumptions) (p : PersonalInfo) :
  let typed := String c s in
  (In key [Key.downPaymentPercent; Key.interestRate; Key.closingCostsPercent;
           Key.landValuePercent; Key.vacancyPercent; Key.avgNightlyRate;
           Key.occupancyRate; Key.airbnbFeePercent; Key.propertyTaxPercent;
           Key.homeInsurancePercent; Key.maintenancePercent; Key.mgmtFeePercent] ->
   getField key (handleAssumptionChange key (Text typed) prev) = parseFloat typed / 100) /\
  (In key [Key.purchasePrice; Key.loanTerm; Key.monthlyRent; Key.equivalentRent;
           Key.monthlyHOA; Key.utilitiesMonthly] ->
   getField key (handleAssumptionChange key (Text typed) prev) = Number_of_string typed) /\
  exists r,
    calculateProforma (handleAssumptionChange Key.avgNightlyRate (Text typed) prev)
      p airbnb = Rental r /\
    RentalProforma.grossPotentialIncome r =
      parseFloat typed / 100 * 365 * occupancyRate prev.
Proof.
  intros typed. split; [ | split ].
  - intros Hin. cbn [In] in Hin.
    repeat (destruct Hin as [<- | Hin]; [ reflexivity | ]). contradiction.
  - intros Hin. cbn [In] in Hin.
    repeat (destruct Hin as [<- | Hin]; [ reflexivity | ]). contradiction.
  - eexists. split; reflexivity.
Qed.

(** X11: [handleAssumptionChange] and [handleSliderChange] leave every field
    other than the one they are called for as it was. *)
Theorem handlers_change_one_field
    (key key' : Key.t) (value : InputValue) (x : float) (prev : Assumptions) :
  key' <> key ->
  getField key' (handleAssumptionChange key value prev) = getField key' prev /\
  getField key' (handleSliderChange key x prev) = getField key' prev.
Proof.
  intros Hne. unfold handleAssumptionChange, handleSliderChange. cbv zeta.
  split; now apply EditorFacts.getField_setField_other.
Qed.

(** X12: the number that the text box of a slider passes on is never NaN:
    text that does not parse counts as 0, and the division by 100 of the
    percent sliders keeps it a number. *)
Theorem textChangeValue_not_nan (isPercent : bool) (text : string) :
  is_nan (textChangeValue isPercent text) = false.
Proof.
  unfold textChangeValue.
  assert (Hval : is_nan (or_zero (parseFloat text)) = false).
  { unfold or_zero. destruct (is_nan (parseFloat text)) eqn:Hnan; [ reflexivity | ].
    cbn [orb]. destruct (PrimFloat.is_zero (parseFloat text)); [ reflexivity | exact Hnan ]. }
  destruct isPercent; [ | exact Hval ].
  eapply RoundingFacts.div_not_nan; [ exact Hval | reflexivity ].
Qed.

End EditorTheorems.

(** A federal tax rate typed as 24 is stored as 0.0024; a down payment typed
    as 24 is stored as 0.24. *)
Lemma personal_slider_divides_twice_witness :
  getPersonal PersonalKey.federalTaxRate
    (handlePersonalChange PersonalKey.federalTaxRate
       (Text (handleTextChange true "24")) defaultPersonal) = 0.24 / 100 /\
  getField Key.downPaymentPercent
    (handleSliderChange Key.downPaymentPercent
       (Number_of_string (handleTextChange true "24")) defaultAssumptions) = 0.24.
Proof.
  apply (personal_slider_divides_twice (H := ReferenceText.host)
           PersonalKey.federalTaxRate "24" defaultPersonal
           Key.downPaymentPercent defaultAssumptions).
  - vm_compute. discriminate.
  - vm_compute. reflexivity.
  - vm_compute. reflexivity.
Defined.

(** Typing a purchase price leaves the interest rate alone. *)
Lemma handlers_change_one_field_witness :
  getField Key.interestRate
    (handleAssumptionChange Key.purchasePrice (Text "500000") defaultAssumptions) =
    getField Key.interestRate defaultAssumptions /\
  getField Key.interestRate
    (handleSliderChange Key.purchasePrice 500000 defaultAssumptions) =
    getField Key.interestRate defaultAssumptions.
Proof.
  apply (handlers_change_one_field (H := ReferenceText.host)
           Key.purchasePrice Key.interestRate (Text "500000") 500000 defaultAssumptions).
  discriminate.
Defined.

(** ** The theorems at concrete inputs *)

(** A purchase price of NaN makes the net taxable income NaN; the tax
    benefit is zero all the same. *)
Lemma taxBenefit_zero_income_witness :
  exists r,
    calculateProforma (defaultsWithPurchase nan 0.2) defaultPersonal rental = Rental r /\
    let income := RentalProforma.netTaxableIncome r in
    ((income =? 0) = true \/ is_nan income = true ->
     RentalProforma.taxBenefit r = 0 /\
     RentalProforma.cashFlowAfterTax r = RentalProforma.cashFlowBeforeTax r + 0).
Proof.
  apply (taxBenefit_zero_income (H := Reference.host)
           (defaultsWithPurchase nan 0.2) defaultPersonal rental).
  discriminate.
Defined.

(** The sign of the tax benefit at the defaults, whose combined rate is
    0.30. *)
Lemma taxBenefit_sign_follows_income_witness :
  exists r,
    calculateProforma defaultAssumptions defaultPersonal airbnb = Rental r /\
    ((RentalProforma.taxBenefit r <? 0) = true ->
     (0 <? RentalProforma.netTaxableIncome r) = true) /\
    ((0 <? RentalProforma.taxBenefit r) = true ->
     (RentalProforma.netTaxableIncome r <? 0) = true).
Proof.
  apply (taxBenefit_sign_follows_income (H := Reference.host)
           defaultAssumptions defaultPersonal airbnb).
  - discriminate.
  - reflexivity.
Defined.

(** The ratios for a purchase price of zero. *)
Lemma rental_ratios_not_finite_witness :
  exists r,
    calculateProforma (defaultsWithPurchase 0 0.2) defaultPersonal rental = Rental r /\
    ((purchasePrice (defaultsWithPurchase 0 0.2) =? 0) = true ->
     is_finite (RentalProforma.capRate r) = false) /\
    ((BaseProforma.totalCashNeeded (RentalProforma.base r) =? 0) = true ->
     is_finite (RentalProforma.cashOnCashReturn r) = false).
Proof.
  apply (rental_ratios_not_finite (H := Reference.host)
           (defaultsWithPurchase 0 0.2) defaultPersonal rental).
  discriminate.
Defined.

(** A property whose year is NaN. *)
Lemma simulatePropertyData_not_finite_seed_witness :
  let property := {| address := "12 Oak Ave"; beds := 3; baths := 2; year := nan |} in
  simulatePropertyData property =
    {| purchasePrice := nan;
       downPaymentPercent := nan;
       interestRate := nan;
       loanTerm := 30;
       closingCostsPercent := nan;
       landValuePercent := nan;
       monthlyRent := nan;
       vacancyPercent := nan;
       avgNightlyRate := nan;
       occupancyRate := nan;
       airbnbFeePercent := nan;
       equivalentRent := nan;
       propertyTaxPercent := nan;
       homeInsurancePercent := nan;
       monthlyHOA := 0;
       maintenancePercent := nan;
       utilitiesMonthly := nan;
       mgmtFeePercent := nan |} /\
  generateMarketContext property =
    {| medianHomePrice := nan; avgRentInArea := nan;
       marketAppreciation := nan; daysOnMarket := nan |}.
Proof.
  apply (simulatePropertyData_not_finite_seed (H := Reference.host)
           {| address := "12 Oak Ave"; beds := 3; baths := 2; year := nan |}).
  reflexivity.
Defined.

(** The seed of three beds, two baths, built in 1995, at 12 Oak Ave. *)
Lemma generateSeed_whole_numbers_witness :
  addressHash "12 Oak Ave" = Number.of_Z (codeSum "12 Oak Ave") /\
  generateSeed
    {| address := "12 Oak Ave"; beds := Number.of_Z 3; baths := Number.of_Z 2;
       year := Number.of_Z 1995 |} =
  Number.of_Z (codeSum "12 Oak Ave" + 100 * 3 + 50 * 2 + 1995).
Proof.
  apply (generateSeed_whole_numbers "12 Oak Ave" 3 2 1995).
  - lia.
  - lia.
  - lia.
  - vm_compute. reflexivity.
Defined.

(** An address and the same address read backwards. *)
Lemma simulatePropertyData_permuted_address_witness :
  simulatePropertyData (house "12 Oak Ave") = simulatePropertyData (house "evA kaO 21") /\
  generateMarketContext (house "12 Oak Ave") = generateMarketContext (house "evA kaO 21").
Proof.
  apply (simulatePropertyData_permuted_address (H := Reference.host)
           (house "12 Oak Ave") (house "evA kaO 21")).
  - change (list_ascii_of_string (address (house "evA kaO 21")))
      with (rev (list_ascii_of_string (address (house "12 Oak Ave")))).
    apply Permutation_rev.
  - vm_compute. reflexivity.
  - reflexivity.
  - reflexivity.
  - reflexivity.
Defined.


(** * Rounding

    What the binary64 operations do to the real numbers: each rounds the
    exact result to the nearest value, a tie going to the even one, and
    rounding is monotone.  The facts are read off [binary_round_aux]. *)

Module Rounding.

Local Open Scope Z_scope.

(** *** Powers of two *)

Lemma bpow_pos (e : Z) : (0 < bpow e)%R.
Proof. apply powerRZ_lt. lra. Qed.

Lemma bpow_add (a b : Z) : bpow (a + b) = (bpow a * bpow b)%R.
Proof. apply powerRZ_add. lra. Qed.

Lemma bpow_IZR (k : Z) : 0 <= k -> bpow k = IZR (2 ^ k).
Proof.
  intros Hk. unfold bpow.
  rewrite <- (Z2Nat.id k Hk) at 1. rewrite <- pow_powerRZ.
  rewrite pow_IZR. now rewrite Z2Nat.id.
Qed.

Lemma bpow_0 : bpow 0 = 1%R.
Proof. reflexivity. Qed.

Lemma bpow_ge_1 (k : Z) : 0 <= k -> (1 <= bpow k)%R.
Proof.
  intros Hk. rewrite bpow_IZR by assumption. apply IZR_le.
  pose proof (Z.pow_pos_nonneg 2 k). lia.
Qed.

Lemma bpow_le (a b : Z) : a <= b -> (bpow a <= bpow b)%R.
Proof.
  intros Hab. replace b with (a + (b - a)) by lia. rewrite bpow_add.
  pose proof (bpow_pos a).
  assert (1 <= bpow (b - a))%R by (apply bpow_ge_1; lia). nra.
Qed.

Lemma bpow_lt (a b : Z) : a < b -> (bpow a < bpow b)%R.
Proof.
  intros Hab. replace b with (a + 1 + (b - a - 1)) by lia. rewrite !bpow_add.
  pose proof (bpow_pos a).
  assert (1 <= bpow (b - a - 1))%R by (apply bpow_ge_1; lia).
  replace (bpow 1) with 2%R by (unfold bpow, powerRZ; simpl; lra).
  assert (bpow a <= bpow a * bpow (b - a - 1))%R by nra. lra.
Qed.

Lemma bpow_opp (a : Z) : (bpow a * bpow (- a) = 1)%R.
Proof. rewrite <- bpow_add. now replace (a + - a) with 0 by lia. Qed.

Lemma scaled_shift (m e k : Z) : 0 <= k -> scaled (m * 2 ^ k) (e - k) = scaled m e.
Proof.
  intros Hk. unfold scaled. rewrite mult_IZR, <- bpow_IZR by assumption.
  replace e with (k + (e - k)) at 2 by lia. rewrite bpow_add. ring.
Qed.

(** *** Digits *)

Lemma digits_bounds (p : positive) :
  2 ^ (dgt p - 1) <= Z.pos p < 2 ^ dgt p.
Proof.
  unfold dgt. rewrite ExactIntegers.digits_size.
  pose proof (Pos.size_le p) as Hle. pose proof (Pos.size_gt p) as Hgt.
  apply Pos2Z.pos_le_pos in Hle. apply Pos2Z.pos_lt_pos in Hgt.
  rewrite Pos2Z.inj_pow in Hle, Hgt.
  change (Z.pos p~0) with (2 * Z.pos p) in Hle.
  split; [ | exact Hgt ].
  replace (Z.pos (Pos.size p)) with (Z.pos (Pos.size p) - 1 + 1) in Hle by lia.
  rewrite Z.pow_add_r in Hle by lia. lia.
Qed.

Lemma digits_le (p q : positive) : Z.pos p <= Z.pos q -> dgt p <= dgt q.
Proof.
  intros Hpq. pose proof (digits_bounds p) as Hp. pose proof (digits_bounds q) as Hq.
  destruct (Z_le_gt_dec (dgt p) (dgt q)) as [ | Hgt]; [ assumption | exfalso ].
  assert (2 ^ dgt q <= 2 ^ (dgt p - 1)) by (apply Z.pow_le_mono_r; lia).
  lia.
Qed.

(** *** Shifting right *)

Lemma shr_1_spec (m : Z) (r s : bool) :
  0 <= m ->
  shr_1 {| shr_m := m; shr_r := r; shr_s := s |} =
  {| shr_m := m / 2; shr_r := Z.odd m; shr_s := r || s |}.
Proof.
  intros Hm. rewrite <- Z.div2_div.
  destruct m as [ | [p | p | ] | p]; try reflexivity. lia.
Qed.

Lemma shr_iter (k : positive) (m : Z) :
  0 <= m ->
  SpecFloat.iter_pos shr_1 k {| shr_m := m; shr_r := false; shr_s := false |} =
  {| shr_m := m / 2 ^ Z.pos k;
     shr_r := Z.odd (m / 2 ^ (Z.pos k - 1));
     shr_s := negb (m mod 2 ^ (Z.pos k - 1) =? 0) |}.
Proof.
  intros Hm. rewrite ExactIntegers.iter_pos_iter.
  induction k as [ | k IH] using Pos.peano_ind.
  - cbn [Pos.iter]. rewrite shr_1_spec by assumption.
    change (Z.pos 1 - 1) with 0. rewrite Z.pow_0_r, Z.div_1_r, Z.mod_1_r.
    reflexivity.
  - rewrite Pos.iter_succ, IH.
    assert (Hpow : 0 < 2 ^ (Z.pos k - 1)) by (apply Z.pow_pos_nonneg; lia).
    assert (Hk : 2 ^ Z.pos k = 2 ^ (Z.pos k - 1) * 2).
    { rewrite <- (Z.pow_1_r 2) at 3. rewrite <- Z.pow_add_r by lia.
      f_equal. lia. }
    rewrite shr_1_spec by (apply Z.div_pos; lia).
    rewrite Pos2Z.inj_succ.
    replace (Z.succ (Z.pos k) - 1) with (Z.pos k) by lia.
    f_equal.
    + rewrite Z.div_div by lia. now rewrite Z.pow_succ_r, Z.mul_comm by lia.
    + rewrite Hk, Z.rem_mul_r by lia. rewrite Zmod_odd.
      pose proof (Z.mod_pos_bound m (2 ^ (Z.pos k - 1)) Hpow).
      destruct (Z.odd (m / 2 ^ (Z.pos k - 1))); cbn [orb].
      * symmetry. apply negb_true_iff, Z.eqb_neq. lia.
      * now rewrite Z.mul_0_r, Z.add_0_r.
Qed.

(** The two bits that the shift keeps decide like the remainder. *)
Lemma round_bits (k : positive) (m : Z) :
  0 <= m ->
  round_nearest_even (m / 2 ^ Z.pos k)
    (loc_of_shr_record
       {| shr_m := m / 2 ^ Z.pos k;
          shr_r := Z.odd (m / 2 ^ (Z.pos k - 1));
          shr_s := negb (m mod 2 ^ (Z.pos k - 1) =? 0) |}) =
  rne m (Z.pos k).
Proof.
  intros Hm. unfold rne. cbv zeta.
  assert (Hpow : 0 < 2 ^ (Z.pos k - 1)) by (apply Z.pow_pos_nonneg; lia).
  assert (Hk : 2 ^ Z.pos k = 2 ^ (Z.pos k - 1) * 2).
  { rewrite <- (Z.pow_1_r 2) at 3. rewrite <- Z.pow_add_r by lia.
    f_equal. lia. }
  assert (Hr : m mod 2 ^ Z.pos k =
               m mod 2 ^ (Z.pos k - 1) +
               2 ^ (Z.pos k - 1) * (if Z.odd (m / 2 ^ (Z.pos k - 1)) then 1 else 0)).
  { rewrite Hk, Z.rem_mul_r by lia. now rewrite Zmod_odd. }
  pose proof (Z.mod_pos_bound m (2 ^ (Z.pos k - 1)) Hpow) as Hb.
  set (b := 2 ^ (Z.pos k - 1)) in *. set (lo := m mod b) in *.
  set (K := 2 ^ Z.pos k) in *. set (r := m mod K) in *.
  destruct (Z.odd (m / b)); destruct (lo =? 0) eqn:Hlo;
    cbn [negb loc_of_shr_record round_nearest_even];
    [ apply Z.eqb_eq in Hlo | apply Z.eqb_neq in Hlo
    | apply Z.eqb_eq in Hlo | apply Z.eqb_neq in Hlo ].
  - replace (2 * r <? K) with false by (symmetry; apply Z.ltb_ge; lia).
    replace (2 * r =? K) with true by (symmetry; apply Z.eqb_eq; lia).
    reflexivity.
  - replace (2 * r <? K) with false by (symmetry; apply Z.ltb_ge; lia).
    replace (2 * r =? K) with false by (symmetry; apply Z.eqb_neq; lia).
    reflexivity.
  - replace (2 * r <? K) with true by (symmetry; apply Z.ltb_lt; lia).
    reflexivity.
  - replace (2 * r <? K) with true by (symmetry; apply Z.ltb_lt; lia).
    reflexivity.
Qed.

Lemma rne_0 (m : Z) : rne m 0 = m.
Proof. unfold rne. now rewrite Z.pow_0_r, Z.div_1_r, Z.mod_1_r. Qed.

(** The first shift of [binary_round_aux] and its rounding. *)
Lemma shr_fexp_rne (m : positive) (e : Z) :
  e <= grid (Z.pos m) e ->
  let '(mrs, e') := shr_fexp prec emax (Z.pos m) e loc_Exact in
  e' = grid (Z.pos m) e /\
  round_nearest_even (shr_m mrs) (loc_of_shr_record mrs) =
    rne (Z.pos m) (grid (Z.pos m) e - e).
Proof.
  intros Hwide. unfold shr_fexp. fold (grid (Z.pos m) e).
  destruct (grid (Z.pos m) e - e) as [ | k | k] eqn:Hk; cbn [shr shr_record_of_loc].
  - split; [ lia | ]. now rewrite rne_0.
  - rewrite shr_iter by lia. split; [ lia | ]. cbn [shr_m]. apply round_bits. lia.
  - lia.
Qed.

End Rounding.

Module RoundingCases.

Import Rounding.

Local Open Scope Z_scope.

Lemma rne_bounds (m k : Z) :
  m / 2 ^ k <= rne m k <= m / 2 ^ k + 1.
Proof.
  unfold rne. cbv zeta.
  destruct (2 * (m mod 2 ^ k) <? 2 ^ k); [ lia | ].
  destruct (2 * (m mod 2 ^ k) =? 2 ^ k); [ | lia ].
  destruct (Z.even (m / 2 ^ k)); lia.
Qed.

Lemma rne_exact (m k : Z) : 0 <= k -> m mod 2 ^ k = 0 -> rne m k = m / 2 ^ k.
Proof.
  intros Hk Hr. unfold rne. cbv zeta. rewrite Hr.
  replace (2 * 0 <? 2 ^ k) with true; [ reflexivity | ].
  symmetry. apply Z.ltb_lt. pose proof (Z.pow_pos_nonneg 2 k). lia.
Qed.

Lemma grid_emin (m e : Z) : -1074 <= grid m e.
Proof. unfold grid, fexp, emin, emax, prec. lia. Qed.

(** The quotient keeps at most 53 digits, and all 53 above [emin]. *)
Lemma quotient_bounds (m : positive) (e : Z) :
  e <= grid (Z.pos m) e ->
  let k := grid (Z.pos m) e - e in
  0 <= Z.pos m / 2 ^ k < 2 ^ 53 /\
  (-1074 < grid (Z.pos m) e -> 2 ^ 52 <= Z.pos m / 2 ^ k).
Proof.
  intros Hwide k. pose proof (digits_bounds m) as [Hlo Hhi].
  assert (Hk : 0 <= k) by (unfold k; lia).
  assert (HK : 0 < 2 ^ k) by (apply Z.pow_pos_nonneg; lia).
  assert (Hd : dgt m - 53 <= k).
  { unfold k, grid, fexp, emin, emax, prec. cbn [Zdigits2]. fold (dgt m). lia. }
  pose proof (ExactIntegers.dgt_pos m) as Hdpos.
  split; [ split | ].
  - apply Z.div_pos; lia.
  - apply Z.div_lt_upper_bound; [ lia | ].
    rewrite <- Z.pow_add_r by lia.
    assert (2 ^ dgt m <= 2 ^ (k + 53)) by (apply Z.pow_le_mono_r; lia). lia.
  - intros Hg.
    assert (Hk' : k = dgt m - 53).
    { revert Hg. unfold k, grid, fexp, emin, emax, prec. cbn [Zdigits2].
      fold (dgt m). lia. }
    apply Z.div_le_lower_bound; [ lia | ].
    rewrite <- Z.pow_add_r by lia.
    replace (k + 52) with (dgt m - 1) by lia. exact Hlo.
Qed.

Lemma IZR_pow2 (k : Z) : 0 <= k -> IZR (2 ^ k) = bpow k.
Proof. intros Hk. now rewrite bpow_IZR. Qed.

(** What [binary_round_aux] returns, by the size of the rounded value. *)
Lemma binary_round_aux_cases (s : bool) (m : positive) (e : Z) :
  e <= grid (Z.pos m) e ->
  let g := grid (Z.pos m) e in
  let n := rne (Z.pos m) (g - e) in
  let r := binary_round_aux prec emax s (Z.pos m) e loc_Exact in
  (n = 0 /\ r = S754_zero s) \/
  (0 < n /\ (bpow 1024 <= scaled n g)%R /\ r = S754_infinity s) \/
  (0 < n /\ (scaled n g < bpow 1024)%R /\
   exists m3 e3, r = S754_finite s m3 e3 /\ scaled (Z.pos m3) e3 = scaled n g).
Proof.
  intros Hwide g n r.
  pose proof (quotient_bounds m e Hwide) as [[Hq0 Hq53] Hq52].
  pose proof (rne_bounds (Z.pos m) (g - e)) as Hn. fold g in Hq0, Hq53, Hq52. fold n in Hn.
  pose proof (grid_emin (Z.pos m) e) as Hg. fold g in Hg.
  unfold r, binary_round_aux.
  pose proof (shr_fexp_rne m e Hwide) as Hfirst.
  destruct (shr_fexp prec emax (Z.pos m) e loc_Exact) as [mrs e'].
  destruct Hfirst as [-> ->]. fold g. fold n.
  pose proof (bpow_pos g) as Hbg.
  destruct n as [ | n' | n'] eqn:Hn'; [ | | lia ].
  - left. split; [ reflexivity | ].
    unfold shr_fexp. cbn [Zdigits2 shr_record_of_loc].
    destruct (fexp prec emax (0 + g) - g) eqn:Hk2; cbn [shr shr_m];
      try reflexivity.
    revert Hk2. unfold fexp, emin, emax, prec. lia.
  - right.
    pose proof (digits_bounds n') as [Hdlo Hdhi].
    pose proof (ExactIntegers.dgt_pos n') as Hdpos.
    assert (Hd54 : dgt n' <= 54).
    { destruct (Z_le_gt_dec (dgt n') 54) as [ | Hgt]; [ assumption | exfalso ].
      assert (2 ^ 54 <= 2 ^ (dgt n' - 1)) by (apply Z.pow_le_mono_r; lia).
      assert (2 ^ 54 = 2 * 2 ^ 53) by reflexivity. lia. }
    unfold shr_fexp. cbn [Zdigits2 shr_record_of_loc]. fold (dgt n').
    destruct (Z_le_gt_dec (dgt n') 53) as [Hd53 | Hd53].
    + assert (Hn53 : Z.pos n' < 2 ^ 53).
      { assert (2 ^ dgt n' <= 2 ^ 53) by (apply Z.pow_le_mono_r; lia). lia. }
      assert (HnR : (IZR (Z.pos n') < bpow 53)%R)
        by (rewrite <- IZR_pow2 by lia; now apply IZR_lt).
      destruct (fexp prec emax (dgt n' + g) - g) eqn:Hk2; cbn [shr shr_m];
        try (revert Hk2; unfold fexp, emin, emax, prec; lia).
      * destruct (g <=? emax - prec) eqn:Hover.
        -- right. split; [ lia | ]. apply Z.leb_le in Hover.
           unfold emax, prec in Hover. split; [ | eauto ].
           unfold scaled.
           assert (bpow g <= bpow 971)%R by (apply bpow_le; lia).
           change 1024 with (53 + 971). rewrite bpow_add.
           pose proof (bpow_pos 53). nra.
        -- left. split; [ lia | split; [ | reflexivity ] ].
           apply Z.leb_gt in Hover. unfold emax, prec in Hover.
           assert (H52 : 2 ^ 52 <= Z.pos n') by lia.
           assert (H52R : (bpow 52 <= IZR (Z.pos n'))%R)
             by (rewrite <- IZR_pow2 by lia; now apply IZR_le).
           assert (bpow 972 <= bpow g)%R by (apply bpow_le; lia).
           unfold scaled. change 1024 with (52 + 972). rewrite bpow_add.
           pose proof (bpow_pos 52). pose proof (bpow_pos 972). nra.
      * destruct (g <=? emax - prec) eqn:Hover.
        -- right. split; [ lia | ]. apply Z.leb_le in Hover.
           unfold emax, prec in Hover. split; [ | eauto ].
           unfold scaled.
           assert (bpow g <= bpow 971)%R by (apply bpow_le; lia).
           change 1024 with (53 + 971). rewrite bpow_add.
           pose proof (bpow_pos 53). nra.
        -- left. split; [ lia | split; [ | reflexivity ] ].
           apply Z.leb_gt in Hover. unfold emax, prec in Hover.
           assert (H52 : 2 ^ 52 <= Z.pos n') by lia.
           assert (H52R : (bpow 52 <= IZR (Z.pos n'))%R)
             by (rewrite <- IZR_pow2 by lia; now apply IZR_le).
           assert (bpow 972 <= bpow g)%R by (apply bpow_le; lia).
           unfold scaled. change 1024 with (52 + 972). rewrite bpow_add.
           pose proof (bpow_pos 52). pose proof (bpow_pos 972). nra.
    + assert (Hn53 : Z.pos n' = 2 ^ 53).
      { assert (2 ^ 53 <= 2 ^ (dgt n' - 1)) by (apply Z.pow_le_mono_r; lia). lia. }
      assert (Hn'' : n' = 9007199254740992%positive) by (change (2 ^ 53) with 9007199254740992 in Hn53; lia).
      replace (fexp prec emax (dgt n' + g) - g) with 1
        by (unfold fexp, emin, emax, prec; lia).
      subst n'. cbn [shr SpecFloat.iter_pos shr_1 shr_m].
      assert (Hval : scaled 4503599627370496 (g + 1) = scaled 9007199254740992 g).
      { unfold scaled. rewrite bpow_add.
        replace (bpow 1) with 2%R by (unfold bpow, powerRZ; simpl; lra).
        change 9007199254740992%Z with (2 * 4503599627370496)%Z.
        rewrite mult_IZR. ring. }
      assert (Hpow : scaled 9007199254740992 g = bpow (53 + g)).
      { unfold scaled. change 9007199254740992 with (2 ^ 53).
        rewrite IZR_pow2 by lia. now rewrite bpow_add. }
      destruct (g + 1 <=? emax - prec) eqn:Hover.
      * right. split; [ lia | ]. apply Z.leb_le in Hover.
        unfold emax, prec in Hover. split; [ | eauto ].
        rewrite Hpow. apply bpow_lt. lia.
      * left. split; [ lia | split; [ | reflexivity ] ].
        apply Z.leb_gt in Hover. unfold emax, prec in Hover.
        rewrite Hpow. apply bpow_le. lia.
Qed.

End RoundingCases.

Module RoundingOrder.

Import Rounding RoundingCases.

Local Open Scope Z_scope.

Lemma bpow_lt_inv (a b : Z) : (bpow a < bpow b)%R -> a < b.
Proof.
  intros Hab. destruct (Z_lt_le_dec a b) as [ | Hle]; [ assumption | exfalso ].
  pose proof (bpow_le b a Hle). lra.
Qed.

(** Rounding to the nearest integer is monotone in the quotient. *)
Lemma rne_mono_Z (m m' k k' : Z) :
  0 <= k -> 0 <= k' -> m * 2 ^ k' <= m' * 2 ^ k -> rne m k <= rne m' k'.
Proof.
  intros Hk Hk' Hle. unfold rne. cbv zeta.
  assert (HK : 0 < 2 ^ k) by (apply Z.pow_pos_nonneg; lia).
  assert (HK' : 0 < 2 ^ k') by (apply Z.pow_pos_nonneg; lia).
  pose proof (Z.div_mod m (2 ^ k)) as Hm.
  pose proof (Z.div_mod m' (2 ^ k')) as Hm'.
  pose proof (Z.mod_pos_bound m (2 ^ k) HK) as Hr.
  pose proof (Z.mod_pos_bound m' (2 ^ k') HK') as Hr'.
  set (K := 2 ^ k) in *. set (K' := 2 ^ k') in *.
  set (q := m / K) in *. set (r := m mod K) in *.
  set (q' := m' / K') in *. set (r' := m' mod K') in *.
  specialize (Hm ltac:(lia)). specialize (Hm' ltac:(lia)).
  clearbody q r q' r' K K'. subst m m'.
  assert (Hq : q <= q').
  { destruct (Z_le_gt_dec q q') as [ | Hgt]; [ assumption | exfalso ].
    assert (K * K' * (q' + 1) <= K * K' * q) by (apply Z.mul_le_mono_nonneg_l; nia).
    nia. }
  destruct (Z.eq_dec q q') as [Heq | Hne].
  - subst q'.
    assert (Hrr : r * K' <= r' * K) by nia.
    destruct (2 * r <? K) eqn:H1; [ apply Z.ltb_lt in H1 | apply Z.ltb_ge in H1 ].
    + destruct (2 * r' <? K'); [ lia | ].
      destruct (2 * r' =? K'); [ | lia ].
      destruct (Z.even q); lia.
    + assert (H1' : K' <= 2 * r') by nia.
      replace (2 * r' <? K') with false by (symmetry; apply Z.ltb_ge; lia).
      destruct (2 * r =? K) eqn:H2; [ apply Z.eqb_eq in H2 | apply Z.eqb_neq in H2 ].
      * destruct (2 * r' =? K'); [ lia | ].
        destruct (Z.even q); lia.
      * assert (H2' : K' < 2 * r') by nia.
        replace (2 * r' =? K') with false by (symmetry; apply Z.eqb_neq; lia).
        lia.
  - assert (q + 1 <= q') by lia.
    assert (Hn : (if 2 * r <? K then q
                  else if 2 * r =? K then if Z.even q then q else q + 1
                  else q + 1) <= q + 1).
    { destruct (2 * r <? K); [ lia | ].
      destruct (2 * r =? K); [ | lia ]. destruct (Z.even q); lia. }
    assert (Hn' : q' <= (if 2 * r' <? K' then q'
                  else if 2 * r' =? K' then if Z.even q' then q' else q' + 1
                  else q' + 1)).
    { destruct (2 * r' <? K'); [ lia | ].
      destruct (2 * r' =? K'); [ | lia ]. destruct (Z.even q'); lia. }
    lia.
Qed.

(** The rounded value is monotone in the value that is rounded. *)
Lemma rne_grid_mono (m m' : positive) (e e' : Z) :
  e <= grid (Z.pos m) e -> e' <= grid (Z.pos m') e' ->
  (scaled (Z.pos m) e <= scaled (Z.pos m') e')%R ->
  (scaled (rne (Z.pos m) (grid (Z.pos m) e - e)) (grid (Z.pos m) e) <=
   scaled (rne (Z.pos m') (grid (Z.pos m') e' - e')) (grid (Z.pos m') e'))%R.
Proof.
  intros Hwide Hwide' Hle.
  pose proof (digits_bounds m) as [Hdlo Hdhi].
  pose proof (digits_bounds m') as [Hdlo' Hdhi'].
  pose proof (ExactIntegers.dgt_pos m) as Hd. pose proof (ExactIntegers.dgt_pos m') as Hd'.
  assert (Hmag : dgt m + e <= dgt m' + e').
  { assert (Hlo : (bpow (dgt m - 1 + e) <= scaled (Z.pos m) e)%R).
    { unfold scaled. rewrite bpow_add, <- (IZR_pow2 (dgt m - 1)) by lia.
      apply Rmult_le_compat_r; [ pose proof (bpow_pos e); lra | now apply IZR_le ]. }
    assert (Hhi : (scaled (Z.pos m') e' < bpow (dgt m' + e'))%R).
    { unfold scaled. rewrite bpow_add, <- (IZR_pow2 (dgt m')) by lia.
      apply Rmult_lt_compat_r; [ apply bpow_pos | now apply IZR_lt ]. }
    assert (dgt m - 1 + e < dgt m' + e') by (apply bpow_lt_inv; lra). lia. }
  set (g := grid (Z.pos m) e) in *. set (g' := grid (Z.pos m') e') in *.
  assert (Hg : g <= g').
  { unfold g, g', grid, fexp, emin, emax, prec. cbn [Zdigits2].
    fold (dgt m) (dgt m'). lia. }
  pose proof (rne_bounds (Z.pos m) (g - e)) as Hn.
  pose proof (rne_bounds (Z.pos m') (g' - e')) as Hn'.
  pose proof (quotient_bounds m e Hwide) as [[Hq0 Hq53] _]. fold g in Hq0, Hq53.
  pose proof (quotient_bounds m' e' Hwide') as [[Hq0' Hq53'] Hq52']. fold g' in Hq0', Hq53', Hq52'.
  pose proof (grid_emin (Z.pos m) e) as Hge. fold g in Hge.
  fold g in Hwide. fold g' in Hwide'.
  clearbody g g'.
  destruct (Z.eq_dec g g') as [Heq | Hne].
  - subst g'. clear Hg Hq52'.
    assert (HZ : Z.pos m * 2 ^ (g - e') <= Z.pos m' * 2 ^ (g - e)).
    { apply le_IZR. rewrite !mult_IZR, !IZR_pow2 by lia.
      unfold scaled in Hle.
      pose proof (bpow_pos (- g)) as Hmg.
      replace (bpow (g - e')) with (bpow g * bpow (- e'))%R
        by (rewrite <- bpow_add; f_equal; lia).
      replace (bpow (g - e)) with (bpow g * bpow (- e))%R
        by (rewrite <- bpow_add; f_equal; lia).
      pose proof (bpow_opp e) as He. pose proof (bpow_opp e') as He'.
      pose proof (bpow_pos g). pose proof (bpow_pos (- e)). pose proof (bpow_pos (- e')).
      pose proof (bpow_pos e). pose proof (bpow_pos e').
      set (x := IZR (Z.pos m)) in *. set (x' := IZR (Z.pos m')) in *.
      assert (E1 : (x * (bpow g * bpow (- e')) =
                    x * bpow e * (bpow (- e) * bpow (- e') * bpow g))%R).
      { rewrite <- (Rmult_1_r x) at 1. rewrite <- He. ring. }
      assert (E2 : (x' * (bpow g * bpow (- e)) =
                    x' * bpow e' * (bpow (- e) * bpow (- e') * bpow g))%R).
      { rewrite <- (Rmult_1_r x') at 1. rewrite <- He'. ring. }
      rewrite E1, E2.
      apply Rmult_le_compat_r; [ | exact Hle ].
      apply Rmult_le_pos; [ apply Rmult_le_pos | ]; lra. }
    pose proof (rne_mono_Z (Z.pos m) (Z.pos m') (g - e) (g - e') ltac:(lia) ltac:(lia) HZ) as Hmono.
    unfold scaled. apply Rmult_le_compat_r; [ pose proof (bpow_pos g); lra | ].
    now apply IZR_le.
  - assert (Hlt : g < g') by lia.
    specialize (Hq52' ltac:(lia)).
    apply Rle_trans with (bpow (52 + g')).
    + apply Rle_trans with (bpow (53 + g)); [ | apply bpow_le; lia ].
      unfold scaled. rewrite bpow_add, <- (IZR_pow2 53) by lia.
      apply Rmult_le_compat_r; [ pose proof (bpow_pos g); lra | ].
      apply IZR_le. lia.
    + unfold scaled. rewrite bpow_add, <- (IZR_pow2 52) by lia.
      apply Rmult_le_compat_r; [ pose proof (bpow_pos g'); lra | ].
      apply IZR_le. lia.
Qed.

End RoundingOrder.

Module FloatOrder.

Import Rounding RoundingCases RoundingOrder.

Local Open Scope Z_scope.

Lemma bounded_spec (m : positive) (e : Z) :
  SpecFloat.bounded prec emax m e = true ->
  grid (Z.pos m) e = e /\ -1074 <= e <= 971 /\ dgt m <= 53.
Proof.
  unfold SpecFloat.bounded, canonical_mantissa.
  rewrite andb_true_iff, Z.eqb_eq, Z.leb_le.
  unfold grid. cbn [Zdigits2]. fold (dgt m).
  unfold fexp, emin, emax, prec. lia.
Qed.

Lemma scaled_pos (m : positive) (e : Z) : (0 < scaled (Z.pos m) e)%R.
Proof.
  unfold scaled. apply Rmult_lt_0_compat; [ now apply IZR_lt | apply bpow_pos ].
Qed.

Lemma scaled_opp (m e : Z) : scaled (- m) e = (- scaled m e)%R.
Proof. unfold scaled. rewrite opp_IZR. ring. Qed.

Lemma scaled_0 (e : Z) : scaled 0 e = 0%R.
Proof. unfold scaled. ring. Qed.

Lemma scaled_lt (m m' e : Z) : m < m' -> (scaled m e < scaled m' e)%R.
Proof.
  intros Hm. unfold scaled.
  apply Rmult_lt_compat_r; [ apply bpow_pos | now apply IZR_lt ].
Qed.

Lemma scaled_le (m m' e : Z) : m <= m' -> (scaled m e <= scaled m' e)%R.
Proof.
  intros Hm. unfold scaled.
  apply Rmult_le_compat_r; [ pose proof (bpow_pos e); lra | now apply IZR_le ].
Qed.

(** Among values in canonical form the one with the smaller exponent is the
    smaller one. *)
Lemma canonical_lt (m1 m2 : positive) (e1 e2 : Z) :
  SpecFloat.bounded prec emax m1 e1 = true ->
  SpecFloat.bounded prec emax m2 e2 = true ->
  e1 < e2 -> (scaled (Z.pos m1) e1 < scaled (Z.pos m2) e2)%R.
Proof.
  intros H1 H2 Hlt.
  apply bounded_spec in H1 as (_ & He1 & Hd1).
  apply bounded_spec in H2 as (Hg2 & He2 & Hd2).
  pose proof (digits_bounds m1) as [_ Hhi]. pose proof (digits_bounds m2) as [Hlo _].
  assert (Hd2' : dgt m2 = 53).
  { revert Hg2. unfold grid. cbn [Zdigits2]. fold (dgt m2).
    unfold fexp, emin, emax, prec. lia. }
  rewrite Hd2' in Hlo. change (53 - 1) with 52 in Hlo.
  assert (Hm1 : Z.pos m1 < 2 ^ 53).
  { assert (2 ^ dgt m1 <= 2 ^ 53) by (apply Z.pow_le_mono_r; lia). lia. }
  apply Rlt_le_trans with (bpow (53 + e1)).
  - rewrite bpow_add, <- (IZR_pow2 53) by lia. now apply scaled_lt.
  - apply Rle_trans with (bpow (52 + e2)); [ apply bpow_le; lia | ].
    rewrite bpow_add, <- (IZR_pow2 52) by lia. now apply scaled_le.
Qed.

Lemma finite_below_overflow (m : positive) (e : Z) :
  SpecFloat.bounded prec emax m e = true ->
  (scaled (Z.pos m) e < bpow 1024)%R.
Proof.
  intros Hb. apply bounded_spec in Hb as (_ & He & Hd).
  pose proof (digits_bounds m) as [_ Hhi].
  assert (Hm : Z.pos m < 2 ^ 53).
  { assert (2 ^ dgt m <= 2 ^ 53) by (apply Z.pow_le_mono_r; lia). lia. }
  apply Rlt_le_trans with (bpow (53 + e)).
  - rewrite bpow_add, <- (IZR_pow2 53) by lia. now apply scaled_lt.
  - apply bpow_le. lia.
Qed.

(** Same sign, both in canonical form: the comparison of the code is the
    comparison of the magnitudes. *)
Lemma compare_magnitudes (m1 m2 : positive) (e1 e2 : Z) :
  SpecFloat.bounded prec emax m1 e1 = true ->
  SpecFloat.bounded prec emax m2 e2 = true ->
  match (match (e1 ?= e2) with
         | Eq => Pos.compare_cont Eq m1 m2
         | Lt => Lt
         | Gt => Gt
         end) with
  | Lt => (scaled (Z.pos m1) e1 < scaled (Z.pos m2) e2)%R
  | Eq => scaled (Z.pos m1) e1 = scaled (Z.pos m2) e2
  | Gt => (scaled (Z.pos m2) e2 < scaled (Z.pos m1) e1)%R
  end.
Proof.
  intros H1 H2.
  destruct (Z.compare_spec e1 e2) as [Heq | Hlt | Hgt].
  - subst e2. rewrite Pos.compare_cont_spec. cbn [Pos.switch_Eq].
    destruct (Pos.compare_spec m1 m2) as [Hm | Hm | Hm]; cbn.
    + now subst.
    + apply scaled_lt. lia.
    + apply scaled_lt. lia.
  - now apply canonical_lt.
  - now apply canonical_lt.
Qed.

Lemma SFcompare_ext (x y : spec_float) :
  valid_binary x = true -> valid_binary y = true ->
  x <> S754_nan -> y <> S754_nan ->
  match SFcompare x y with
  | Some Lt => (SF2Rext x < SF2Rext y)%R
  | Some Eq => SF2Rext x = SF2Rext y
  | Some Gt => (SF2Rext y < SF2Rext x)%R
  | None => False
  end.
Proof.
  intros Hx Hy Hnx Hny. pose proof (bpow_pos 1024) as Hinf.
  destruct x as [sx|sx| |sx mx ex], y as [sy|sy| |sy my ey];
    try congruence; cbn [valid_binary SpecFloat.valid_binary] in Hx, Hy;
    cbn [SFcompare SF2Rext SF2R cond_Zopp];
    repeat match goal with
           | H : SpecFloat.bounded _ _ ?m ?e = true |- _ =>
               pose proof (finite_below_overflow m e H);
               pose proof (scaled_pos m e);
               generalize dependent H
           end;
    intros;
    try solve [ repeat match goal with s : bool |- _ => destruct s end;
                cbn [cond_Zopp]; rewrite ?scaled_opp; lra ].
  pose proof (compare_magnitudes mx my ex ey ltac:(assumption) ltac:(assumption)) as Hc.
  destruct sx, sy; cbn [cond_Zopp]; rewrite ?scaled_opp; try lra.
  - destruct (ex ?= ey); [ destruct (Pos.compare_cont Eq mx my) | | ]; cbn [CompOpp]; lra.
  - destruct (ex ?= ey); [ destruct (Pos.compare_cont Eq mx my) | | ]; lra.
Qed.

Lemma SFleb_ext (x y : spec_float) :
  valid_binary x = true -> valid_binary y = true ->
  x <> S754_nan -> y <> S754_nan ->
  (SFleb x y = true <-> (SF2Rext x <= SF2Rext y)%R).
Proof.
  intros Hx Hy Hnx Hny. pose proof (SFcompare_ext x y Hx Hy Hnx Hny) as Hc.
  unfold SFleb. destruct (SFcompare x y) as [[ | | ] | ]; split; intros; try lra;
    try reflexivity; try discriminate; contradiction.
Qed.

Lemma SFltb_ext (x y : spec_float) :
  valid_binary x = true -> valid_binary y = true ->
  x <> S754_nan -> y <> S754_nan ->
  (SFltb x y = true <-> (SF2Rext x < SF2Rext y)%R).
Proof.
  intros Hx Hy Hnx Hny. pose proof (SFcompare_ext x y Hx Hy Hnx Hny) as Hc.
  unfold SFltb. destruct (SFcompare x y) as [[ | | ] | ]; split; intros; try lra;
    try reflexivity; try discriminate; contradiction.
Qed.

End FloatOrder.

Module RoundsFacts.

Import Rounding RoundingCases RoundingOrder FloatOrder.

Local Open Scope Z_scope.

Lemma rounded_nonneg (m : positive) (e : Z) :
  e <= grid (Z.pos m) e ->
  (0 <= scaled (rne (Z.pos m) (grid (Z.pos m) e - e)) (grid (Z.pos m) e))%R.
Proof.
  intros Hwide. pose proof (quotient_bounds m e Hwide) as [[Hq _] _].
  pose proof (rne_bounds (Z.pos m) (grid (Z.pos m) e - e)) as [Hn _].
  rewrite <- (scaled_0 (grid (Z.pos m) e)). apply scaled_le. lia.
Qed.

(** The result of [binary_round_aux] as a real number: the rounded value,
    cut off at [2^1024]. *)
Lemma binary_round_aux_ext (s : bool) (m : positive) (e : Z) :
  e <= grid (Z.pos m) e ->
  SF2Rext (binary_round_aux prec emax s (Z.pos m) e loc_Exact) =
  ((if s then -1 else 1) *
   Rmin (scaled (rne (Z.pos m) (grid (Z.pos m) e - e)) (grid (Z.pos m) e))
        (bpow 1024))%R.
Proof.
  intros Hwide. pose proof (bpow_pos 1024) as Hinf.
  destruct (binary_round_aux_cases s m e Hwide)
    as [[Hn ->] | [(Hn & Hw & ->) | (Hn & Hw & m3 & e3 & -> & Hv)]];
    cbn [SF2Rext SF2R].
  - rewrite Hn, scaled_0, Rmin_left by lra. ring.
  - rewrite Rmin_right by exact Hw. destruct s; ring.
  - rewrite Rmin_left by lra. rewrite <- Hv.
    unfold scaled. destruct s; cbn [cond_Zopp]; rewrite ?opp_IZR; ring.
Qed.

Lemma rounds_not_nan (v : R) (r : spec_float) : rounds v r -> r <> S754_nan.
Proof.
  intros [[_ [s ->]] | (s & m & e & Hwide & _ & ->)]; [ discriminate | ].
  apply RoundingFacts.binary_round_aux_not_nan. lia.
Qed.

Lemma scaled_add (a b e : Z) : scaled (a + b) e = (scaled a e + scaled b e)%R.
Proof. unfold scaled. rewrite plus_IZR. ring. Qed.

Lemma scaled_cond_Zopp (s : bool) (m e : Z) :
  scaled (cond_Zopp s m) e = ((if s then -1 else 1) * scaled m e)%R.
Proof. destruct s; cbn [cond_Zopp]; rewrite ?scaled_opp; ring. Qed.

(** Rounding is monotone. *)
Lemma rounds_mono (v v' : R) (r r' : spec_float) :
  rounds v r -> rounds v' r' -> (v <= v')%R -> (SF2Rext r <= SF2Rext r')%R.
Proof.
  intros Hr Hr' Hle. pose proof (bpow_pos 1024) as Hinf.
  destruct Hr as [[Hv [s ->]] | (s & m & e & Hwide & Hv & ->)];
    destruct Hr' as [[Hv' [s' ->]] | (s' & m' & e' & Hwide' & Hv' & ->)];
    rewrite ?binary_round_aux_ext by assumption; cbn [SF2Rext SF2R];
    try pose proof (rounded_nonneg m e Hwide) as Hw;
    try pose proof (rounded_nonneg m' e' Hwide') as Hw';
    try pose proof (scaled_pos m e) as Hpos;
    try pose proof (scaled_pos m' e') as Hpos'.
  - lra.
  - rewrite scaled_cond_Zopp in Hv'. destruct s'; [ lra | ].
    assert (0 <= Rmin (scaled (rne (Z.pos m') (grid (Z.pos m') e' - e')) (grid (Z.pos m') e')) (bpow 1024))%R
      by (apply Rmin_glb; lra).
    lra.
  - rewrite scaled_cond_Zopp in Hv. destruct s; [ | lra ].
    assert (0 <= Rmin (scaled (rne (Z.pos m) (grid (Z.pos m) e - e)) (grid (Z.pos m) e)) (bpow 1024))%R
      by (apply Rmin_glb; lra).
    lra.
  - set (w := scaled (rne (Z.pos m) (grid (Z.pos m) e - e)) (grid (Z.pos m) e)) in *.
    set (w' := scaled (rne (Z.pos m') (grid (Z.pos m') e' - e')) (grid (Z.pos m') e')) in *.
    assert (H0 : (0 <= Rmin w (bpow 1024))%R) by (apply Rmin_glb; lra).
    assert (H0' : (0 <= Rmin w' (bpow 1024))%R) by (apply Rmin_glb; lra).
    rewrite scaled_cond_Zopp in Hv, Hv'. destruct s, s'.
    + assert (Hww : (w' <= w)%R) by (apply rne_grid_mono; [ assumption | assumption | lra ]).
      pose proof (Rle_min_compat_r _ _ (bpow 1024) Hww). lra.
    + lra.
    + lra.
    + assert (Hww : (w <= w')%R) by (apply rne_grid_mono; [ assumption | assumption | lra ]).
      pose proof (Rle_min_compat_r _ _ (bpow 1024) Hww). lra.
Qed.

(** A value in canonical form rounds to itself. *)
Lemma binary_round_aux_canonical (s : bool) (m : positive) (e : Z) :
  SpecFloat.bounded prec emax m e = true ->
  binary_round_aux prec emax s (Z.pos m) e loc_Exact = S754_finite s m e.
Proof.
  intros Hb. apply bounded_spec in Hb as (Hg & He & Hd).
  unfold grid in Hg.
  unfold binary_round_aux, shr_fexp. rewrite Hg, Z.sub_diag.
  cbn [shr shr_record_of_loc shr_m loc_of_shr_record round_nearest_even].
  rewrite Hg, Z.sub_diag. cbn [shr shr_m].
  replace (e <=? emax - prec) with true; [ reflexivity | ].
  symmetry. apply Z.leb_le. unfold emax, prec. lia.
Qed.

Lemma valid_rounds (x : spec_float) :
  valid_binary x = true -> SFfinite x -> rounds (SF2R x) x.
Proof.
  intros Hx Hfin. destruct x as [s|s| |s m e]; try contradiction.
  - left. split; [ reflexivity | eauto ].
  - right. exists s, m, e. cbn in Hx.
    pose proof (bounded_spec m e Hx) as (Hg & _).
    split; [ lia | split; [ reflexivity | ] ].
    symmetry. now apply binary_round_aux_canonical.
Qed.

(** [shl_align] keeps the value and gives the rounding all the digits. *)
Lemma shl_align_spec (m : positive) (e : Z) :
  let '(mz, ez) := shl_align m e (grid (Z.pos m) e) in
  scaled (Z.pos mz) ez = scaled (Z.pos m) e /\ ez <= grid (Z.pos mz) ez.
Proof.
  unfold shl_align.
  destruct (grid (Z.pos m) e - e) as [ | d | d] eqn:Hd.
  - split; [ reflexivity | lia ].
  - split; [ reflexivity | lia ].
  - change (Pos.iter xO m d) with (Pos.shiftl m (N.pos d)).
    split.
    + rewrite ExactIntegers.shiftl_value.
      replace (grid (Z.pos m) e) with (e - Z.of_N (N.pos d)) by (cbn; lia).
      apply scaled_shift. lia.
    + unfold grid at 2. cbn [Zdigits2].
      change (Z.pos (digits2_pos (Pos.shiftl m (N.pos d))))
        with (dgt (Pos.shiftl m (N.pos d))).
      rewrite ExactIntegers.dgt_shiftl.
      change (Z.of_N (N.pos d)) with (Z.pos d).
      replace (dgt m + Z.pos d + grid (Z.pos m) e) with (dgt m + e) by lia.
      unfold grid. cbn [Zdigits2]. fold (dgt m). lia.
Qed.

Lemma binary_round_rounds (s : bool) (m : positive) (e : Z) :
  rounds (scaled (cond_Zopp s (Z.pos m)) e) (binary_round prec emax s m e).
Proof.
  unfold binary_round.
  pose proof (shl_align_spec m e) as Hal. unfold grid in Hal at 1.
  cbn [Zdigits2] in Hal.
  destruct (shl_align m e (fexp prec emax (Z.pos (digits2_pos m) + e))) as [mz ez].
  destruct Hal as [Hv Hwide].
  right. exists s, mz, ez. split; [ exact Hwide | split; [ | reflexivity ] ].
  rewrite !scaled_cond_Zopp. now rewrite Hv.
Qed.

Lemma binary_normalize_rounds (m e : Z) (szero : bool) :
  rounds (scaled m e) (binary_normalize prec emax m e szero).
Proof.
  destruct m as [ | p | p]; cbn [binary_normalize].
  - left. split; [ apply scaled_0 | eauto ].
  - exact (binary_round_rounds false p e).
  - exact (binary_round_rounds true p e).
Qed.

(** The aligned mantissa of an addend. *)
Lemma aligned_value (m : positive) (e ez : Z) :
  ez <= e -> scaled (Z.pos (fst (shl_align m e ez))) ez = scaled (Z.pos m) e.
Proof.
  intros Hez. unfold shl_align.
  destruct (ez - e) as [ | d | d] eqn:Hd; cbn [fst].
  - now replace ez with e by lia.
  - lia.
  - change (Pos.iter xO m d) with (Pos.shiftl m (N.pos d)).
    rewrite ExactIntegers.shiftl_value.
    replace ez with (e - Z.of_N (N.pos d)) by (cbn; lia).
    apply scaled_shift. lia.
Qed.

Lemma SFadd_rounds (x y : spec_float) :
  valid_binary x = true -> valid_binary y = true ->
  SFfinite x -> SFfinite y ->
  rounds (SF2R x + SF2R y) (SFadd prec emax x y).
Proof.
  intros Hx Hy Hfx Hfy.
  destruct x as [sx|sx| |sx mx ex], y as [sy|sy| |sy my ey]; try contradiction;
    cbn [SFadd SF2R].
  - left. split; [ lra | ]. destruct sx, sy; eauto.
  - rewrite Rplus_0_l. now apply (valid_rounds (S754_finite sy my ey)).
  - rewrite Rplus_0_r. now apply (valid_rounds (S754_finite sx mx ex)).
  - set (ez := Z.min ex ey).
    rewrite !scaled_cond_Zopp.
    rewrite <- (aligned_value mx ex ez), <- (aligned_value my ey ez) by (unfold ez; lia).
    rewrite <- !scaled_cond_Zopp, <- scaled_add.
    apply binary_normalize_rounds.
Qed.

Lemma SFsub_rounds (x y : spec_float) :
  valid_binary x = true -> valid_binary y = true ->
  SFfinite x -> SFfinite y ->
  rounds (SF2R x - SF2R y) (SFsub prec emax x y).
Proof.
  intros Hx Hy Hfx Hfy.
  destruct x as [sx|sx| |sx mx ex], y as [sy|sy| |sy my ey]; try contradiction;
    cbn [SFsub SF2R].
  - left. split; [ lra | ]. destruct sx, sy; eauto.
  - replace (0 - scaled (cond_Zopp sy (Z.pos my)) ey)%R
      with (SF2R (S754_finite (negb sy) my ey))
      by (cbn [SF2R]; rewrite !scaled_cond_Zopp; destruct sy; cbn; ring).
    now apply valid_rounds.
  - rewrite Rminus_0_r. now apply (valid_rounds (S754_finite sx mx ex)).
  - set (ez := Z.min ex ey).
    rewrite !scaled_cond_Zopp.
    rewrite <- (aligned_value mx ex ez), <- (aligned_value my ey ez) by (unfold ez; lia).
    rewrite <- !scaled_cond_Zopp.
    replace (scaled (cond_Zopp sx (Z.pos (fst (shl_align mx ex ez)))) ez -
             scaled (cond_Zopp sy (Z.pos (fst (shl_align my ey ez)))) ez)%R
      with (scaled (cond_Zopp sx (Z.pos (fst (shl_align mx ex ez))) -
                    cond_Zopp sy (Z.pos (fst (shl_align my ey ez)))) ez)
      by (unfold scaled; rewrite minus_IZR; ring).
    apply binary_normalize_rounds.
Qed.

Lemma SFmul_rounds (x y : spec_float) :
  valid_binary x = true -> valid_binary y = true ->
  SFfinite x -> SFfinite y ->
  rounds (SF2R x * SF2R y) (SFmul prec emax x y).
Proof.
  intros Hx Hy Hfx Hfy.
  destruct x as [sx|sx| |sx mx ex], y as [sy|sy| |sy my ey]; try contradiction;
    cbn [SFmul SF2R];
    try (left; split; [ lra | eauto ]).
  right. exists (xorb sx sy), (mx * my)%positive, (ex + ey).
  cbn in Hx, Hy.
  apply bounded_spec in Hx as (Hgx & Hex & Hdx).
  apply bounded_spec in Hy as (Hgy & Hey & Hdy).
  split; [ | split; [ | reflexivity ] ].
  - pose proof (ExactIntegers.dgt_mul mx my) as Hmul.
    pose proof (ExactIntegers.dgt_pos mx). pose proof (ExactIntegers.dgt_pos my).
    revert Hgx Hgy. unfold grid. cbn [Zdigits2].
    fold (dgt mx) (dgt my) (dgt (mx * my)).
    unfold fexp, emin, emax, prec. lia.
  - rewrite !scaled_cond_Zopp. unfold scaled.
    rewrite Pos2Z.inj_mul, mult_IZR, bpow_add.
    destruct sx, sy; cbn [xorb]; ring.
Qed.

End RoundsFacts.

Module FloatBounds.

Import Rounding RoundingCases RoundingOrder FloatOrder RoundsFacts.

Lemma finite_SFfinite (x : float) : is_finite x = true -> SFfinite (Prim2SF x).
Proof.
  intros Hx.
  destruct (Prim2SF x) as [s|s| |s m e] eqn:E; cbn; trivial.
  - assert (is_finite x = false) by (apply SpecialValues.is_finite_false; eauto).
    congruence.
  - assert (is_finite x = false) by (apply SpecialValues.is_finite_false; eauto).
    congruence.
Qed.

Lemma SFfinite_finite (x : float) : SFfinite (Prim2SF x) -> is_finite x = true.
Proof.
  intros Hx. destruct (is_finite x) eqn:E; [ reflexivity | ].
  apply SpecialValues.is_finite_false in E as [E | [s E]]; rewrite E in Hx;
    contradiction.
Qed.

Lemma SFfinite_ext (x : spec_float) : SFfinite x -> SF2Rext x = SF2R x.
Proof. destruct x; cbn; intros H; try contradiction; reflexivity. Qed.

Lemma SFfinite_not_nan (x : spec_float) : SFfinite x -> x <> S754_nan.
Proof. destruct x; cbn; intros H; try contradiction; discriminate. Qed.

Lemma leb_ext (x y : float) :
  Prim2SF x <> S754_nan -> Prim2SF y <> S754_nan ->
  (SF2Rext (Prim2SF x) <= SF2Rext (Prim2SF y))%R -> (x <=? y) = true.
Proof.
  intros Hx Hy Hle. rewrite FloatAxioms.leb_spec.
  apply SFleb_ext; auto using Prim2SF_valid.
Qed.

Lemma ltb_real (x y : float) :
  is_finite x = true -> is_finite y = true -> (x <? y) = true ->
  (SF2R (Prim2SF x) < SF2R (Prim2SF y))%R.
Proof.
  intros Hx Hy Hlt. apply finite_SFfinite in Hx, Hy.
  rewrite FloatAxioms.ltb_spec in Hlt.
  apply SFltb_ext in Hlt; auto using Prim2SF_valid, SFfinite_not_nan.
  now rewrite !SFfinite_ext in Hlt.
Qed.

Lemma real_below_overflow (x : spec_float) :
  valid_binary x = true -> (- bpow 1024 < SF2R x < bpow 1024)%R.
Proof.
  intros Hx. pose proof (bpow_pos 1024).
  destruct x as [s|s| |s m e]; cbn [SF2R]; try lra.
  cbn in Hx. pose proof (finite_below_overflow m e Hx). pose proof (scaled_pos m e).
  rewrite scaled_cond_Zopp. destruct s; lra.
Qed.

Lemma add_rounds (x y : float) :
  is_finite x = true -> is_finite y = true ->
  rounds (SF2R (Prim2SF x) + SF2R (Prim2SF y)) (Prim2SF (x + y)).
Proof.
  intros Hx Hy. rewrite add_spec.
  apply SFadd_rounds; auto using Prim2SF_valid, finite_SFfinite.
Qed.

Lemma sub_rounds (x y : float) :
  is_finite x = true -> is_finite y = true ->
  rounds (SF2R (Prim2SF x) - SF2R (Prim2SF y)) (Prim2SF (x - y)).
Proof.
  intros Hx Hy. rewrite sub_spec.
  apply SFsub_rounds; auto using Prim2SF_valid, finite_SFfinite.
Qed.

Lemma mul_rounds (x y : float) :
  is_finite x = true -> is_finite y = true ->
  rounds (SF2R (Prim2SF x) * SF2R (Prim2SF y)) (Prim2SF (x * y)).
Proof.
  intros Hx Hy. rewrite mul_spec.
  apply SFmul_rounds; auto using Prim2SF_valid, finite_SFfinite.
Qed.

Lemma exact_rounds (x : float) :
  is_finite x = true -> rounds (SF2R (Prim2SF x)) (Prim2SF x).
Proof. intros Hx. apply valid_rounds; auto using Prim2SF_valid, finite_SFfinite. Qed.

(** What rounds from between two finite numbers is finite and between
    them. *)
Lemma rounds_between (v : R) (r a b : float) :
  rounds v (Prim2SF r) -> is_finite a = true -> is_finite b = true ->
  (SF2R (Prim2SF a) <= v <= SF2R (Prim2SF b))%R ->
  is_finite r = true /\
  (SF2R (Prim2SF a) <= SF2R (Prim2SF r) <= SF2R (Prim2SF b))%R.
Proof.
  intros Hr Ha Hb [Hlo Hhi].
  pose proof (rounds_mono _ _ _ _ (exact_rounds a Ha) Hr Hlo) as H1.
  pose proof (rounds_mono _ _ _ _ Hr (exact_rounds b Hb) Hhi) as H2.
  rewrite (SFfinite_ext (Prim2SF a)) in H1 by now apply finite_SFfinite.
  rewrite (SFfinite_ext (Prim2SF b)) in H2 by now apply finite_SFfinite.
  pose proof (real_below_overflow _ (Prim2SF_valid a)) as Hba.
  pose proof (real_below_overflow _ (Prim2SF_valid b)) as Hbb.
  pose proof (rounds_not_nan _ _ Hr) as Hnan.
  assert (Hfin : SFfinite (Prim2SF r)).
  { destruct (Prim2SF r) as [s|[|]| |s m e]; cbn in *; trivial; try lra.
    congruence. }
  rewrite SFfinite_ext in H1, H2 by assumption.
  split; [ now apply SFfinite_finite | lra ].
Qed.

End FloatBounds.

Module FloorFacts.

Import Rounding RoundingCases RoundingOrder FloatOrder RoundsFacts FloatBounds.

Lemma canon_real (s : bool) (p : positive) :
  (dgt p <= 53)%Z ->
  SF2R (canon s p) = ((if s then -1 else 1) * IZR (Z.pos p))%R.
Proof.
  intros Hd. pose proof (ExactIntegers.dgt_pos p).
  unfold canon. cbn [SF2R]. rewrite scaled_cond_Zopp. f_equal.
  rewrite ExactIntegers.shiftl_value.
  replace (dgt p - 53)%Z with (0 - Z.of_N (Z.to_N (53 - dgt p)))%Z by lia.
  rewrite scaled_shift by lia. unfold scaled. rewrite bpow_0. ring.
Qed.

(** A whole number below [2^53] in magnitude is itself as a binary64
    value. *)
Lemma of_Z_real (z : Z) :
  (Z.abs z < 2 ^ 53)%Z ->
  is_finite (Number.of_Z z) = true /\ SF2R (Prim2SF (Number.of_Z z)) = IZR z.
Proof.
  intros Hz. destruct z as [ | p | p].
  - split; reflexivity.
  - assert (Hd : (dgt p <= 53)%Z) by (apply ExactIntegers.dgt_bound; lia).
    split.
    + apply SFfinite_finite. rewrite ExactIntegers.Prim2SF_of_Z_pos by assumption.
      exact I.
    + rewrite ExactIntegers.Prim2SF_of_Z_pos, canon_real by assumption. ring.
  - assert (Hd : (dgt p <= 53)%Z) by (apply ExactIntegers.dgt_bound; lia).
    assert (E : Prim2SF (Number.of_Z (Z.neg p)) = canon true p).
    { change (Number.of_Z (Z.neg p)) with (- Number.of_Z (Z.pos p))%float.
      rewrite opp_spec, ExactIntegers.Prim2SF_of_Z_pos by assumption. reflexivity. }
    split.
    + apply SFfinite_finite. rewrite E. exact I.
    + rewrite E, canon_real by assumption.
      change (Z.neg p) with (- Z.pos p)%Z. rewrite opp_IZR. ring.
Qed.

(** [Math.floor] of a finite number is a finite number, at most the number
    and less than one below it. *)
Lemma Math_floor_real (x : float) :
  is_finite x = true ->
  is_finite (Math_floor x) = true /\
  (SF2R (Prim2SF (Math_floor x)) <= SF2R (Prim2SF x) <
   SF2R (Prim2SF (Math_floor x)) + 1)%R.
Proof.
  intros Hx. pose proof (Prim2SF_valid x) as Hvalid.
  unfold Math_floor.
  destruct (Prim2SF x) as [s|s| |s m e] eqn:E.
  - rewrite E. split; [ assumption | cbn; lra ].
  - rewrite E. split; [ assumption | cbn; lra ].
  - rewrite E. split; [ assumption | cbn; lra ].
  - destruct (0 <=? e)%Z eqn:He.
    + rewrite E. split; [ assumption | lra ].
    + apply Z.leb_gt in He. cbn in Hvalid.
      apply bounded_spec in Hvalid as (_ & _ & Hd).
      pose proof (digits_bounds m) as [_ Hm].
      assert (Hm53 : (Z.pos m < 2 ^ 53)%Z).
      { assert (2 ^ dgt m <= 2 ^ 53)%Z by (apply Z.pow_le_mono_r; lia). lia. }
      assert (Hdd : (2 <= 2 ^ (- e))%Z).
      { change 2%Z with (2 ^ 1)%Z at 1. apply Z.pow_le_mono_r; lia. }
      pose proof (Z.div_mod (Z.pos m) (2 ^ (- e)) ltac:(lia)) as Hdiv.
      pose proof (Z.mod_pos_bound (Z.pos m) (2 ^ (- e)) ltac:(lia)) as Hmod.
      assert (Hq : (0 <= Z.pos m / 2 ^ (- e))%Z) by (apply Z.div_pos; lia).
      assert (Hinv : (IZR (2 ^ (- e)) * bpow e = 1)%R).
      { rewrite IZR_pow2 by lia. rewrite Rmult_comm.
        replace e with (- - e)%Z at 1 by lia. rewrite Rmult_comm. apply bpow_opp. }
      set (dd := (2 ^ (- e))%Z) in *.
      set (q := (Z.pos m / dd)%Z) in *. set (r := (Z.pos m mod dd)%Z) in *.
      assert (Hv : scaled (Z.pos m) e = (IZR q + IZR r * bpow e)%R).
      { unfold scaled. rewrite Hdiv, plus_IZR, mult_IZR.
        rewrite Rmult_plus_distr_r.
        replace (IZR dd * IZR q * bpow e)%R with (IZR q * (IZR dd * bpow e))%R by ring.
        rewrite Hinv. ring. }
      assert (Hfrac : (0 <= IZR r * bpow e < 1)%R).
      { pose proof (bpow_pos e). split.
        - apply Rmult_le_pos; [ apply IZR_le; lia | lra ].
        - rewrite <- Hinv. apply Rmult_lt_compat_r; [ assumption | apply IZR_lt; lia ]. }
      cbn [SF2R]. rewrite scaled_cond_Zopp, Hv.
      destruct s.
      * destruct (r =? 0)%Z eqn:Hr.
        -- apply Z.eqb_eq in Hr.
           destruct (of_Z_real (- q)) as [Hfin Hval]; [ nia | ].
           split; [ exact Hfin | ]. rewrite Hval, opp_IZR, Hr. lra.
        -- apply Z.eqb_neq in Hr.
           destruct (of_Z_real (- (q + 1))) as [Hfin Hval]; [ nia | ].
           split; [ exact Hfin | ]. rewrite Hval, opp_IZR, plus_IZR.
           assert (0 < IZR r * bpow e)%R.
           { apply Rmult_lt_0_compat; [ apply IZR_lt; lia | apply bpow_pos ]. }
           lra.
      * destruct (of_Z_real q) as [Hfin Hval]; [ nia | ].
        split; [ exact Hfin | ]. rewrite Hval. lra.
Qed.

End FloorFacts.

(** * The range of the generator *)

Module GeneratorFacts.

Import Rounding FloatOrder RoundsFacts FloatBounds FloorFacts.

Lemma zero_real : SF2R (Prim2SF 0) = 0%R.
Proof. reflexivity. Qed.

Lemma one_real : SF2R (Prim2SF 1) = 1%R.
Proof.
  destruct (of_Z_real 1) as [_ Hv]; [ reflexivity | ]. exact Hv.
Qed.

(** Every range that the module passes ends where it says: [min + (max -
    min)] is [max] itself, nothing is rounded. *)
Lemma seededRanges_upper (lo hi : float) :
  In (lo, hi) seededRanges -> lo + (hi - lo) = hi.
Proof.
  intros Hin.
  assert (Hall : forallb (fun '(lo, hi) => PrimFloat.Leibniz.eqb (lo + (hi - lo)) hi)
                   seededRanges = true) by reflexivity.
  rewrite forallb_forall in Hall. specialize (Hall _ Hin).
  now apply Leibniz.eqb_spec.
Qed.

Section WithHost.

Context `{Host}.

(** The fraction [x - floor x] of a finite number is a finite number from 0
    to 1, both included: it rounds to 1 for a tiny negative [x]. *)
Lemma fraction_range (x : float) :
  is_finite x = true ->
  is_finite (x - Math_floor x) = true /\
  (0 <= SF2R (Prim2SF (x - Math_floor x)) <= 1)%R.
Proof.
  intros Hx. destruct (Math_floor_real x Hx) as [Hf Hfv].
  rewrite <- zero_real at 1. rewrite <- one_real.
  apply (rounds_between _ _ 0 1 (sub_rounds x (Math_floor x) Hx Hf));
    try reflexivity.
  rewrite zero_real, one_real. lra.
Qed.

Lemma seededRandom_bounds (seed min max : float) :
  is_finite (Math_sin seed * 10000) = true ->
  is_finite min = true -> is_finite max = true ->
  (min <? max) = true ->
  is_finite (max - min) = true ->
  (min <=? seededRandom seed min max) = true /\
  (seededRandom seed min max <=? min + (max - min)) = true.
Proof.
  intros Hx Hmin Hmax Hlt Hd. unfold seededRandom. cbv zeta.
  set (x := Math_sin seed * 10000) in *.
  destruct (fraction_range x Hx) as [Hr Hrv].
  set (random := x - Math_floor x) in *.
  pose proof (ltb_real min max Hmin Hmax Hlt) as Hlt'.
  assert (Hdv : (0 <= SF2R (Prim2SF (max - min)))%R).
  { pose proof (rounds_mono _ _ _ _ (exact_rounds 0 eq_refl)
                  (sub_rounds max min Hmax Hmin)) as Hm.
    rewrite zero_real in Hm. specialize (Hm ltac:(lra)).
    rewrite !SFfinite_ext in Hm by (apply finite_SFfinite; auto).
    rewrite zero_real in Hm. exact Hm. }
  set (d := max - min) in *.
  assert (Ht : is_finite (random * d) = true /\
               (0 <= SF2R (Prim2SF (random * d)) <= SF2R (Prim2SF d))%R).
  { rewrite <- zero_real at 1.
    apply (rounds_between _ _ 0 d (mul_rounds random d Hr Hd)); auto.
    rewrite zero_real. nra. }
  destruct Ht as [Ht Htv].
  pose proof (add_rounds min (random * d) Hmin Ht) as Hsum.
  pose proof (add_rounds min d Hmin Hd) as Hend.
  split.
  - apply leb_ext.
    + apply SFfinite_not_nan. now apply finite_SFfinite.
    + exact (rounds_not_nan _ _ Hsum).
    + apply (rounds_mono _ _ _ _ (exact_rounds min Hmin) Hsum). lra.
  - apply leb_ext.
    + exact (rounds_not_nan _ _ Hsum).
    + exact (rounds_not_nan _ _ Hend).
    + apply (rounds_mono _ _ _ _ Hsum Hend). lra.
Qed.

(** A scaled sine that is NaN or infinite gives NaN: [NaN - NaN] and
    [Infinity - Infinity] are NaN. *)
Lemma seededRandom_nan (seed min max : float) :
  is_finite (Math_sin seed * 10000) = false ->
  is_nan (seededRandom seed min max) = true.
Proof.
  intros Hx. unfold seededRandom. cbv zeta.
  set (x := Math_sin seed * 10000) in *.
  assert (Hr : x - Math_floor x = nan).
  { apply Prim2SF_inj. rewrite sub_spec. unfold Math_floor.
    apply SpecialValues.is_finite_false in Hx as [E | [s E]]; rewrite E.
    - reflexivity.
    - rewrite E. now destruct s. }
  rewrite Hr. now autorewrite with nan.
Qed.

End WithHost.

End GeneratorFacts.

Section GeneratorRange.

Context `{Host}.

(** C4, as binary64 has it: when the scaled sine of the seed and the width
    [max - min] are finite, the value lies in the closed interval from
    [min] to [min + (max - min)]; for every range that the module passes
    this upper end is [max].  When the scaled sine is not finite the value
    is NaN.  The generator is a function of its arguments and of the host's
    sine: the same arguments give the same value. *)
Theorem seededRandom_range (seed min max : float) :
  is_finite (Math_sin seed * 10000) = true ->
  is_finite min = true -> is_finite max = true ->
  (min <? max) = true ->
  is_finite (max - min) = true ->
  let v := seededRandom seed min max in
  (min <=? v) = true /\
  (v <=? min + (max - min)) = true /\
  (In (min, max) seededRanges -> (v <=? max) = true) /\
  (forall seed', is_finite (Math_sin seed' * 10000) = false ->
     is_nan (seededRandom seed' min max) = true) /\
  (forall s lo hi s' lo' hi' : float,
     s = s' -> lo = lo' -> hi = hi' ->
     seededRandom s lo hi = seededRandom s' lo' hi').
Proof.
  intros Hx Hmin Hmax Hlt Hd v.
  destruct (GeneratorFacts.seededRandom_bounds seed min max Hx Hmin Hmax Hlt Hd)
    as [Hlo Hhi].
  repeat split.
  - exact Hlo.
  - exact Hhi.
  - intros Hin. rewrite (GeneratorFacts.seededRanges_upper min max Hin) in Hhi.
    exact Hhi.
  - intros seed'. apply GeneratorFacts.seededRandom_nan.
  - now intros s lo hi s' lo' hi' -> -> ->.
Qed.

End GeneratorRange.

(** The first draw of [calculateRealisticPrice] for the house at 12 Oak
    Ave, on the reference host. *)
Lemma seededRandom_range_witness :
  let seed := generateSeed (house "12 Oak Ave") + 1 in
  let v := seededRandom seed 80000 120000 in
  (80000 <=? v) = true /\
  (v <=? 80000 + (120000 - 80000)) = true /\
  (In (80000, 120000) seededRanges -> (v <=? 120000) = true) /\
  (forall seed', is_finite (Math_sin seed' * 10000) = false ->
     is_nan (seededRandom seed' 80000 120000) = true) /\
  (forall s lo hi s' lo' hi' : float,
     s = s' -> lo = lo' -> hi = hi' ->
     seededRandom s lo hi = seededRandom s' lo' hi').
Proof.
  apply (seededRandom_range (H := Reference.host)
           (generateSeed (house "12 Oak Ave") + 1) 80000 120000);
    vm_compute; reflexivity.
Defined.

(** C4 as stated fails in binary64.  A seed just below zero, whose sine on
    the reference host (as for any faithful sine) is the seed itself, has a
    fraction that rounds to 1: over [[0, 1)] the value is 1, and over
    [[0.3, 0.9)] it is above 0.9.  A range wider than the largest number
    makes [max - min] infinite and the value NaN.  And a property with
    [1e307] bedrooms has an infinite seed, so that the first draw of
    [calculateRealisticPrice] is NaN. *)
Lemma seededRandom_out_of_range :
  ((0 <? 1) = true /\ seededRandom (-1e-25) 0 1 = 1) /\
  ((0.3 <? 0.9) = true /\
   (0.9 <? seededRandom (-1e-25) 0.3 0.9) = true) /\
  ((-1.5e308 <? 1.5e308) = true /\
   is_nan (seededRandom 0 (-1.5e308) 1.5e308) = true) /\
  (let seed :=
     generateSeed {| address := "12 Oak Ave"; beds := 1e307; baths := 2;
                     year := 1995 |} in
   (80000 <? 120000) = true /\
   is_nan (seededRandom (seed + 1) 80000 120000) = true).
Proof. repeat split; reflexivity. Qed.
